(** * Polish Trainer: the exercise card, the matcher and the random selector

    A shallow embedding of the TypeScript sources
    - [utils/checkAnswer.ts]   ([normalize], [checkAnswer]),
    - [utils/pickRandom.ts]    ([pickRandom]),
    - [App.tsx]                ([nextRandom]),
    - [components/ExerciseCard.tsx] (state, handlers, reset effect,
      [shootConfetti]),
    together with the theorems that relate them to the written
    specification and further properties of the code. *)

From Stdlib Require Import String Ascii ZArith NArith List Bool Lia.
From Stdlib Require Import Floats.SpecFloat.
Import ListNotations.

(** ** ECMAScript strings *)

Module JsString.

(** A string value is a finite sequence of UTF-16 code units. *)
Definition t := list N.

(** Code units of a literal whose characters are all below U+0100. *)
Fixpoint lit (s : string) : t :=
  match s with
  | EmptyString => []
  | String c r => N_of_ascii c :: lit r
  end.

Definition eqb (a b : t) : bool :=
  if list_eq_dec N.eq_dec a b then true else false.

(** [WhiteSpace] and [LineTerminator] code points: what [trim] strips and
    what the regular-expression class [\s] matches. *)
Definition isWhiteSpace (c : N) : bool :=
  ((9 <=? c) && (c <=? 13) || (c =? 32) || (c =? 160) || (c =? 5760)
   || (8192 <=? c) && (c <=? 8202) || (c =? 8232) || (c =? 8233)
   || (c =? 8239) || (c =? 8287) || (c =? 12288) || (c =? 65279))%N.

Fixpoint trimStart (s : t) : t :=
  match s with
  | [] => []
  | c :: r => if isWhiteSpace c then trimStart r else s
  end.

Definition trimEnd (s : t) : t := rev (trimStart (rev s)).

(** [String.prototype.trim] *)
Definition trim (s : t) : t := trimEnd (trimStart s).

(** The code units on which lower-casing is modelled exactly: those of
    the blocks Basic Latin, Latin-1 Supplement and Latin Extended-A (which
    hold the Polish alphabet) other than U+0130, whose lower case is two
    code units, and the white-space code units, which have no case.  In a
    string of such code units every character is one code unit and is
    mapped on its own: the one rule of [toLowerCase] that looks at the
    neighbours is the one for the Greek capital sigma. *)
Definition inCaseTable (c : N) : bool :=
  ((c <=? 383) && negb (c =? 304) || isWhiteSpace c)%N.

(** Lower-case mapping of one code unit of the case table.  The other
    code units are left as they are, which is not what [toLowerCase]
    does to the cased letters among them. *)
Definition lowerUnit (c : N) : N :=
  (if (65 <=? c) && (c <=? 90) then c + 32
   else if (192 <=? c) && (c <=? 222) && negb (c =? 215) then c + 32
   else if (256 <=? c) && (c <=? 303) || (306 <=? c) && (c <=? 311)
           || (330 <=? c) && (c <=? 375)
        then (if N.even c then c + 1 else c)
   else if (313 <=? c) && (c <=? 328) || (377 <=? c) && (c <=? 382)
        then (if N.odd c then c + 1 else c)
   else if c =? 376 then 255
   else c)%N.

(** [String.prototype.toLowerCase], on the strings of the case table. *)
Definition toLowerCase (s : t) : t := map lowerUnit s.

(** [s.replace(/\s+/g, " ")]: every maximal run of white space becomes one
    space.  [inRun] tells that the previous code unit belonged to a run
    already replaced. *)
Fixpoint collapseFrom (inRun : bool) (s : t) : t :=
  match s with
  | [] => []
  | c :: r =>
      if isWhiteSpace c
      then (if inRun then collapseFrom true r else 32%N :: collapseFrom true r)
      else c :: collapseFrom false r
  end.

Definition replaceWhiteSpaceRuns (s : t) : t := collapseFrom false s.

(** Truthiness of a string: the empty string is the only falsy one. *)
Definition truthy (s : t) : bool :=
  match s with [] => false | _ :: _ => true end.

End JsString.

Abbreviation jsstring := JsString.t.

(** Strings all of whose code units are in the case table. *)
Definition caseTableString (s : jsstring) : bool :=
  forallb JsString.inCaseTable s.

(** ** utils/checkAnswer.ts *)

Definition normalize (s : jsstring) : jsstring :=
  JsString.replaceWhiteSpaceRuns (JsString.toLowerCase (JsString.trim s)).

Definition checkAnswer (user correct : jsstring) : bool :=
  JsString.eqb (normalize user) (normalize correct).

(** ** ECMAScript numbers *)

Module JsNumber.

(** A Number is an IEEE 754 binary64 value; the arithmetic is the one of
    the Standard Library's [SpecFloat] at precision 53. *)
Definition t := spec_float.

Definition prec : Z := 53.
Definition emax : Z := 1024.

Definition add : t -> t -> t := SFadd prec emax.
Definition sub : t -> t -> t := SFsub prec emax.
Definition mul : t -> t -> t := SFmul prec emax.
Definition div : t -> t -> t := SFdiv prec emax.
Definition leb : t -> t -> bool := SFleb.
Definition ltb : t -> t -> bool := SFltb.

(** The Number of an integer (exact below 2^53 in magnitude). *)
Definition ofZ (z : Z) : t := binary_normalize prec emax z 0 false.

Definition zero : t := S754_zero false.
Definition one : t := S754_finite false 4503599627370496 (-52).

(** The literals of [ExerciseCard.tsx] that are not integers. *)
Definition lit_0_5 : t := S754_finite false 4503599627370496 (-53).
Definition lit_0_25 : t := S754_finite false 4503599627370496 (-54).
Definition lit_0_35 : t := S754_finite false 6305039478318694 (-54).
Definition lit_0_65 : t := S754_finite false 5854679515581645 (-53).
Definition PI : t := S754_finite false 7074237752028440 (-51).

(** The integer part (towards minus infinity) of a finite Number. *)
Definition floorZ (s : bool) (m : positive) (e : Z) : Z :=
  let z := cond_Zopp s (Zpos m) in
  if (0 <=? e)%Z then (z * 2 ^ e)%Z else (z / 2 ^ (- e))%Z.

(** [Math.floor]: zeros, infinities and NaN are returned as they are; a
    finite Number becomes the Number of its integer part. *)
Definition floor (x : t) : t :=
  match x with
  | S754_finite s m e => ofZ (floorZ s m e)
  | _ => x
  end.

(** The array index a Number denotes when used as a property key:
    defined for the non-negative integral Numbers. *)
Definition toIndex (x : t) : option nat :=
  match x with
  | S754_zero _ => Some O
  | S754_finite false m e =>
      if (0 <=? e)%Z then Some (Z.to_nat (Zpos m * 2 ^ e))
      else if (Zpos m mod 2 ^ (- e) =? 0)%Z
           then Some (Z.to_nat (Zpos m / 2 ^ (- e)))
           else None
  | _ => None
  end.

(** What [Math.random()] may return: a binary64 value of positive sign,
    at least 0 and less than 1. *)
Definition isUnit (r : t) : bool :=
  match r with
  | S754_zero false => true
  | S754_finite false m e => bounded prec emax m e && ltb r one
  | _ => false
  end.

End JsNumber.

(** ** The source of randomness

    [Math.random()] reads a global generator.  The generator is an
    infinite tape of Numbers and a cursor; a call returns the Number
    under the cursor and moves the cursor on. *)

Record Rng : Type := { draws : nat -> JsNumber.t; pos : nat }.

Definition Math_random (g : Rng) : JsNumber.t * Rng :=
  (draws g (pos g), {| draws := draws g; pos := S (pos g) |}).

(** The generator [k] draws later. *)
Definition skip (k : nat) (g : Rng) : Rng :=
  {| draws := draws g; pos := k + pos g |}.

(** Every Number on the tape is a legal result of [Math.random()]. *)
Definition unitTape (g : Rng) : Prop :=
  forall k, JsNumber.isUnit (draws g k) = true.

(** ** Arrays and completions *)

(** [items[i]] for a Number [i]: the element, or [undefined] ([None])
    when [i] is not an index of [items]. *)
Definition arrayGet {A : Type} (items : list A) (i : JsNumber.t) : option A :=
  match JsNumber.toIndex i with
  | Some k => nth_error items k
  | None => None
  end.

(** How a call ends: normally with a value, by throwing, or (in this
    model only) by exhausting the fuel given to a [while] loop. *)
Inductive Completion (A : Type) : Type :=
| Normal (a : A)
| Throw (message : string)
| OutOfFuel.

Arguments Normal {A} a.
Arguments Throw {A} message.
Arguments OutOfFuel {A}.

Definition throws {A : Type} (c : Completion A) : Prop :=
  exists message, c = Throw message.

(** ** utils/pickRandom.ts

    The body has no [throw]; the value is [items[idx]], which is
    [undefined] ([None]) when [idx] is not an index of [items]. *)
Definition pickRandom {A : Type} (items : list A) (g : Rng)
  : Completion (option A) * Rng :=
  let (r, g') := Math_random g in
  let idx := JsNumber.floor
               (JsNumber.mul r (JsNumber.ofZ (Z.of_nat (length items)))) in
  (Normal (arrayGet items idx), g').

(** ** types/Exercise.ts *)

(** Modelled from the spec: the declaration of the [Exercise] type
    ([types/Exercise.ts]) is not among the sources; the fields are those
    of section 3 of the specification, [id] being an opaque identifier
    compared with [===]. *)
Record Exercise : Type := {
  id : N;
  type : jsstring;
  prompt : jsstring;
  answer : jsstring;
  choices : option (list jsstring);
  explanation : option jsstring
}.

(** ** App.tsx *)

(** The [while] loop of [nextRandom]: [next] is the candidate in hand.
    Reading [next.id] of [undefined] throws a [TypeError]. *)
Fixpoint retryWhileSame (fuel : nat) (exercises : list Exercise)
    (current : Exercise) (next : option Exercise) (g : Rng)
  : Completion Exercise * Rng :=
  match next with
  | None => (Throw "TypeError", g)
  | Some n =>
      if (id n =? id current)%N then
        match fuel with
        | O => (OutOfFuel, g)
        | S fuel' =>
            match pickRandom exercises g with
            | (Normal next', g') =>
                retryWhileSame fuel' exercises current next' g'
            | (Throw m, g') => (Throw m, g')
            | (OutOfFuel, g') => (OutOfFuel, g')
            end
        end
      else (Normal n, g)
  end.

(** [nextRandom]: the value is the new [current] ([setCurrent(next)]), or
    the old one when the function returns early. *)
Definition nextRandom (fuel : nat) (exercises : list Exercise)
    (current : Exercise) (g : Rng) : Completion Exercise * Rng :=
  if (length exercises <=? 1)%nat then (Normal current, g)
  else
    match pickRandom exercises g with
    | (Normal next, g') => retryWhileSame fuel exercises current next g'
    | (Throw m, g') => (Throw m, g')
    | (OutOfFuel, g') => (OutOfFuel, g')
    end.

(** ** components/ExerciseCard.tsx: state and handlers *)

(** The three [useState] cells. *)
Record CardState : Type := {
  value : jsstring;
  checked : bool;
  isCorrect : option bool
}.

(** What a handler does besides setting state. *)
Inductive Signal : Type :=
| PreventDefault
| WowSuccess
| ShootConfetti
| ErrorPulse.

(** The outcome of the handlers run for one event: the state once the
    queued [setX] calls are applied, the signals emitted, and how often
    the [onNext] prop was called.  A handler reads [value] and [checked]
    from the render it closes over, never from the batch. *)
Record Batch : Type := {
  state : CardState;
  signals : list Signal;
  nextCalls : nat
}.

Definition begin (s : CardState) : Batch :=
  {| state := s; signals := []; nextCalls := 0 |}.

Definition setValue (v : jsstring) (b : Batch) : Batch :=
  {| state := {| value := v;
                 checked := checked (state b);
                 isCorrect := isCorrect (state b) |};
     signals := signals b; nextCalls := nextCalls b |}.

Definition setChecked (c : bool) (b : Batch) : Batch :=
  {| state := {| value := value (state b);
                 checked := c;
                 isCorrect := isCorrect (state b) |};
     signals := signals b; nextCalls := nextCalls b |}.

Definition setIsCorrect (r : option bool) (b : Batch) : Batch :=
  {| state := {| value := value (state b);
                 checked := checked (state b);
                 isCorrect := r |};
     signals := signals b; nextCalls := nextCalls b |}.

Definition emit (sg : Signal) (b : Batch) : Batch :=
  {| state := state b; signals := signals b ++ [sg];
     nextCalls := nextCalls b |}.

Definition onNext (b : Batch) : Batch :=
  {| state := state b; signals := signals b;
     nextCalls := S (nextCalls b) |}.

(** The refs are attached while the card is mounted, so the guard clauses
    of the three feedback functions do not fire. *)
Definition triggerWowSuccess : Batch -> Batch := emit WowSuccess.
Definition shootConfettiSignal : Batch -> Batch := emit ShootConfetti.
Definition triggerErrorPulse : Batch -> Batch := emit ErrorPulse.

Definition handleCheck (exercise : Exercise) (s : CardState) (b : Batch)
  : Batch :=
  let ok := checkAnswer (value s) (answer exercise) in
  let b := setIsCorrect (Some ok) b in
  let b := setChecked true b in
  if ok then shootConfettiSignal (triggerWowSuccess b)
  else triggerErrorPulse b.

Definition handleEnter (exercise : Exercise) (s : CardState) (b : Batch)
  : Batch :=
  if negb (checked s) then
    if JsString.truthy (JsString.trim (value s))
    then handleCheck exercise s b
    else b
  else onNext b.

(** [exercise.choices?.length] as a condition. *)
Definition hasChoices (exercise : Exercise) : bool :=
  match choices exercise with
  | Some cs => negb (length cs =? 0)%nat
  | None => false
  end.

(** Value of a run of decimal digits. *)
Fixpoint digitsValue (acc : N) (s : jsstring) : option N :=
  match s with
  | [] => Some acc
  | c :: r =>
      if ((48 <=? c) && (c <=? 57))%N
      then digitsValue (10 * acc + (c - 48))%N r
      else None
  end.

(** The values [e.key] takes: one typed character (one code unit here),
    or the name of a key, which begins with a capital letter of Basic
    Latin ([Enter], [ArrowDown], [F1], ...). *)
Definition isKeyIdentifier (key : jsstring) : bool :=
  match key with
  | [] => false
  | [_] => true
  | c :: _ => ((65 <=? c) && (c <=? 90))%N
  end.

(** [Number(e.key)] on key identifiers; [None] is NaN.  Of the numeric
    literals only the runs of decimal digits are read, and white space
    alone converts to 0: one character is a number only as a digit or as
    white space, and no key name is a number between 1 and the number of
    choices.  Signs, fractions and exponents, which no key identifier
    holds, are not read. *)
Definition keyNumber (key : jsstring) : option N :=
  match JsString.trim key with
  | [] => Some 0%N
  | k => digitsValue 0 k
  end.

(** [Array.prototype.findIndex]: the first index whose element satisfies
    [p], or -1. *)
Fixpoint findIndexFrom {A : Type} (p : A -> bool) (i : Z) (l : list A) : Z :=
  match l with
  | [] => (-1)%Z
  | a :: r => if p a then i else findIndexFrom p (i + 1)%Z r
  end.

Definition findIndex {A : Type} (p : A -> bool) (l : list A) : Z :=
  findIndexFrom p 0 l.

Definition key_Enter : jsstring := JsString.lit "Enter".
Definition key_ArrowDown : jsstring := JsString.lit "ArrowDown".
Definition key_ArrowUp : jsstring := JsString.lit "ArrowUp".

(** [setValue(exercise.choices[i])]; the index is within the array at
    both call sites. *)
Definition setValueAt (cs : list jsstring) (i : Z) (b : Batch) : Batch :=
  match nth_error cs (Z.to_nat i) with
  | Some c => setValue c b
  | None => b
  end.

Definition handleKeyDown (exercise : Exercise) (s : CardState)
    (key : jsstring) (b : Batch) : Batch :=
  if JsString.eqb key key_Enter then
    handleEnter exercise s (emit PreventDefault b)
  else if hasChoices exercise then
    let cs := match choices exercise with Some cs => cs | None => [] end in
    let n := keyNumber key in
    if match n with
       | Some k => ((1 <=? k) && (k <=? N.of_nat (length cs)))%N
       | None => false
       end
    then
      let k := match n with Some k => Z.of_N k | None => 0%Z end in
      setValueAt cs (k - 1) (emit PreventDefault b)
    else if JsString.eqb key key_ArrowDown || JsString.eqb key key_ArrowUp
    then
      let b := emit PreventDefault b in
      let len := Z.of_nat (length cs) in
      if (len =? 0)%Z then b
      else
        let currentIndex :=
          findIndex (fun c => JsString.eqb c (value s)) cs in
        let cur := if (0 <=? currentIndex)%Z then currentIndex else 0%Z in
        let next :=
          if JsString.eqb key key_ArrowDown
          then ((cur + 1) mod len)%Z
          else ((cur - 1 + len) mod len)%Z in
        setValueAt cs next b
    else b
  else b.

(** ** components/ExerciseCard.tsx: the rendered controls *)

(** The events the rendered card reacts to.  A key pressed in the text
    input runs the input's [onKeyDown] and then, bubbling, the
    container's. *)
Inductive Event : Type :=
| KeyDown (key : jsstring)
| InputKeyDown (key : jsstring)
| InputChange (text : jsstring)
| ClickChoice (index : nat)
| ClickCheck
| ClickNext.

(** [disabled={!value.trim()}] of the Check button. *)
Definition checkDisabled (s : CardState) : bool :=
  negb (JsString.truthy (JsString.trim (value s))).

Definition handleEvent (exercise : Exercise) (s : CardState) (ev : Event)
  : Batch :=
  let b := begin s in
  match ev with
  | KeyDown key => handleKeyDown exercise s key b
  | InputKeyDown key =>
      if hasChoices exercise then b
      else
        let b := if JsString.eqb key key_Enter
                 then handleEnter exercise s (emit PreventDefault b)
                 else b in
        handleKeyDown exercise s key b
  | InputChange text =>
      if hasChoices exercise then b else setValue text b
  | ClickChoice i =>
      if hasChoices exercise then
        match choices exercise with
        | Some cs =>
            match nth_error cs i with
            | Some c => setValue c b
            | None => b
            end
        | None => b
        end
      else b
  | ClickCheck => if checkDisabled s then b else handleCheck exercise s b
  | ClickNext => onNext b
  end.

(** The state the reset effect installs. *)
Definition resetState : CardState :=
  {| value := []; checked := false; isCorrect := None |}.

(** The dependency array of the reset effect:
    [[exercise.id, exercise.choices?.length]]. *)
Definition effectDeps (exercise : Exercise) : N * option nat :=
  (id exercise, option_map (@length jsstring) (choices exercise)).

Definition depsChanged (old new : Exercise) : bool :=
  negb ((fst (effectDeps old) =? fst (effectDeps new))%N
        && match snd (effectDeps old), snd (effectDeps new) with
           | Some a, Some b => (a =? b)%nat
           | None, None => true
           | _, _ => false
           end).

(** ** The application: [App] rendering one [ExerciseCard] *)

Record AppState : Type := {
  exercises : list Exercise;
  current : Exercise;
  card : CardState;
  rng : Rng
}.

(** The [onNext] calls of one event all close over the same [current];
    each runs [nextRandom] and the last [setCurrent] wins. *)
Fixpoint runNextCalls (fuel : nat) (calls : nat) (pool : list Exercise)
    (closed shown : Exercise) (g : Rng) : Completion Exercise * Rng :=
  match calls with
  | O => (Normal shown, g)
  | S calls' =>
      match nextRandom fuel pool closed g with
      | (Normal next, g') => runNextCalls fuel calls' pool closed next g'
      | other => other
      end
  end.

(** The generator after the feedback of one event.  [shootConfetti] runs
    on the mounted card, whose refs are attached and whose canvas gives a
    2d context, so each call spawns its 120 pieces and takes their 840
    draws (seven a piece, see [Confetti.spawn] below); the other feedback
    draws nothing. *)
Fixpoint afterFeedback (sgs : list Signal) (g : Rng) : Rng :=
  match sgs with
  | [] => g
  | ShootConfetti :: rest => afterFeedback rest (skip 840 g)
  | _ :: rest => afterFeedback rest g
  end.

(** After the handlers of an event: the confetti of a successful check
    has taken its draws, [App] runs the [onNext] calls, the component
    re-renders with the new state and the new [exercise] prop, and the
    reset effect runs when its dependencies changed.  (No event both
    checks and calls [onNext], so the order of the draws is not at
    stake.) *)
Definition commit (fuel : nat) (a : AppState) (b : Batch)
  : Completion AppState :=
  match runNextCalls fuel (nextCalls b) (exercises a) (current a)
          (current a) (afterFeedback (signals b) (rng a)) with
  | (Normal next, g') =>
      Normal {| exercises := exercises a;
                current := next;
                card := if depsChanged (current a) next
                        then resetState else state b;
                rng := g' |}
  | (Throw m, _) => Throw m
  | (OutOfFuel, _) => OutOfFuel
  end.

(** One event on the rendered card. *)
Definition step (fuel : nat) (a : AppState) (ev : Event)
  : Completion AppState :=
  commit fuel a (handleEvent (current a) (card a) ev).

(** A sequence of events, one after the other. *)
Fixpoint runEvents (fuel : nat) (a : AppState) (evs : list Event)
  : Completion AppState :=
  match evs with
  | [] => Normal a
  | ev :: rest =>
      match step fuel a ev with
      | Normal a' => runEvents fuel a' rest
      | other => other
      end
  end.

(** The operations the specification names. *)
Definition setAnswerValue (text : jsstring) : Event := InputChange text.
Definition selectChoice (index : nat) : Event := ClickChoice index.
Definition check : Event := ClickCheck.
Definition advance : Event := ClickNext.
Definition handleKey (key : jsstring) : Event := KeyDown key.

(** The base index the arrows move from ([cur] in [handleKeyDown]): the
    index of the selected choice, or 0 when no choice equals [value]. *)
Definition baseIndex (cs : list jsstring) (s : CardState) : Z :=
  let currentIndex := findIndex (fun c => JsString.eqb c (value s)) cs in
  if (0 <=? currentIndex)%Z then currentIndex else 0%Z.

(** The card state after a key pressed on the container. *)
Definition afterKey (exercise : Exercise) (key : jsstring) (s : CardState)
  : CardState :=
  state (handleEvent exercise s (handleKey key)).

(** ** App.tsx: the first render *)

(** [useState(() => pickRandom(exercises))] picks the first exercise;
    [ExerciseCard] then renders it with its initial state.  The render
    reads [exercise.id] (for the dependency array of the reset effect),
    which throws a [TypeError] when the pick was [undefined]. *)
Definition mount (pool : list Exercise) (g : Rng) : Completion AppState :=
  match pickRandom pool g with
  | (Normal (Some e), g') =>
      Normal {| exercises := pool; current := e; card := resetState;
                rng := g' |}
  | (Normal None, _) => Throw "TypeError"
  | (Throw m, _) => Throw m
  | (OutOfFuel, _) => OutOfFuel
  end.

(** ** components/ExerciseCard.tsx: the feedback classes *)








(** ** components/ExerciseCard.tsx: [shootConfetti] *)

Module Confetti.

Import JsNumber.

(** One confetti piece.  [life] only ever counts up from 0 by one, so it
    is kept as the integer it denotes. *)
Record Piece : Type := {
  x : t; y : t; vx : t; vy : t;
  size : t; rot : t; vr : t;
  life : Z; ttl : t; hue : t
}.

(** One [fillRect] with the context state it was issued under. *)
Record Draw : Type := {
  globalAlpha : t;
  translateX : t; translateY : t; rotate : t;
  fillHue : t;
  rectX : t; rectY : t; rectW : t; rectH : t
}.

(** The canvas overlay: its size and what is painted on it. *)
Record Canvas : Type := { width : t; height : t; drawn : list Draw }.

(** [context.clearRect(0, 0, canvas.width, canvas.height)] *)
Definition clearRect (cv : Canvas) : Canvas :=
  {| width := width cv; height := height cv; drawn := [] |}.

Definition fill (d : Draw) (cv : Canvas) : Canvas :=
  {| width := width cv; height := height cv; drawn := drawn cv ++ [d] |}.

(** What the guards of [shootConfetti] look at: the two refs, the card's
    bounding box, and whether a 2d context can be had. *)
Record Dom : Type := {
  canvasRef : option Canvas;
  cardRect : option (t * t);
  context2d : bool
}.

(** The object literal of the [map] callback; the seven [Math.random()]
    calls happen in field order. *)
Definition newPiece (cv : Canvas) (g : Rng) : Piece * Rng :=
  let (r1, g) := Math_random g in
  let (r2, g) := Math_random g in
  let (r3, g) := Math_random g in
  let (r4, g) := Math_random g in
  let (r5, g) := Math_random g in
  let (r6, g) := Math_random g in
  let (r7, g) := Math_random g in
  ({| x := div (width cv) (ofZ 2);
      y := div (height cv) (ofZ 3);
      vx := mul (sub r1 lit_0_5) (ofZ 10);
      vy := sub (mul r2 (ofZ (-10))) (ofZ 4);
      size := add (mul r3 (ofZ 6)) (ofZ 4);
      rot := mul r4 PI;
      vr := mul (sub r5 lit_0_5) lit_0_25;
      life := 0;
      ttl := add (ofZ 90) (floor (mul r6 (ofZ 60)));
      hue := floor (mul r7 (ofZ 360)) |}, g).

(** [Array.from({ length: n }).map(...)] *)
Fixpoint spawn (n : nat) (cv : Canvas) (g : Rng) : list Piece * Rng :=
  match n with
  | O => ([], g)
  | S n' =>
      let (p, g1) := newPiece cv g in
      let (ps, g2) := spawn n' cv g1 in
      (p :: ps, g2)
  end.

(** The animation: the canvas, the pieces, the frame counter (counted up
    from 0 by one, so kept as the integer it denotes), and whether a
    [requestAnimationFrame] callback is pending. *)
Record Sim : Type := {
  canvas : Canvas;
  pieces : list Piece;
  frame : Z;
  scheduled : bool
}.

Definition shootConfetti (dom : Dom) (g : Rng) : option Sim * Rng :=
  match canvasRef dom, cardRect dom with
  | Some cv, Some (w, h) =>
      let cv := {| width := floor w; height := floor h; drawn := [] |} in
      if context2d dom then
        let (ps, g') := spawn 120 cv g in
        (Some {| canvas := cv; pieces := ps; frame := 0;
                 scheduled := true |}, g')
      else (None, g)
  | _, _ => (None, g)
  end.

(** The body of the [for] loop up to the [continue] test. *)
Definition movePiece (p : Piece) : Piece :=
  let vy' := add (vy p) lit_0_35 in
  {| x := add (x p) (vx p);
     y := add (y p) vy';
     vx := vx p; vy := vy';
     size := size p;
     rot := add (rot p) (vr p);
     vr := vr p;
     life := life p + 1; ttl := ttl p; hue := hue p |}.

Definition alphaOf (p : Piece) : t :=
  sub one (div (ofZ (life p)) (ttl p)).

Definition drawPiece (p : Piece) (cv : Canvas) : Canvas :=
  let alpha := alphaOf p in
  if leb alpha zero then cv
  else fill {| globalAlpha := alpha;
               translateX := x p; translateY := y p; rotate := rot p;
               fillHue := hue p;
               rectX := div (SFopp (size p)) (ofZ 2);
               rectY := div (SFopp (size p)) (ofZ 2);
               rectW := size p;
               rectH := mul (size p) lit_0_65 |} cv.

(** [for (const p of pieces) { ... }]: the pieces are updated in place. *)
Fixpoint tickPieces (ps : list Piece) (cv : Canvas) : list Piece * Canvas :=
  match ps with
  | [] => ([], cv)
  | p :: rest =>
      let p' := movePiece p in
      let cv' := drawPiece p' cv in
      let (rest', cv'') := tickPieces rest cv' in
      (p' :: rest', cv'')
  end.

Definition tick (s : Sim) : Sim :=
  let frame' := (frame s + 1)%Z in
  let cv := clearRect (canvas s) in
  let (ps, cv) := tickPieces (pieces s) cv in
  if (frame' <? 140)%Z
  then {| canvas := cv; pieces := ps; frame := frame'; scheduled := true |}
  else {| canvas := clearRect cv; pieces := ps; frame := frame';
          scheduled := false |}.

(** One display frame: the pending callback, if any, runs once. *)
Definition frameStep (s : Sim) : Sim :=
  if scheduled s
  then tick {| canvas := canvas s; pieces := pieces s; frame := frame s;
               scheduled := false |}
  else s.

Fixpoint run (frames : nat) (s : Sim) : Sim :=
  match frames with
  | O => s
  | S n => run n (frameStep s)
  end.

End Confetti.

(** ** Auxiliary notions for the properties *)

(** The finite Number [m * 2^e] lies strictly below the integer [n];
    both sides are scaled by [2^1200] so that no negative exponent is
    left. *)
Definition below (n m e : Z) : Prop :=
  (-1200 <= e /\ m * 2 ^ (e + 1200) < n * 2 ^ 1200)%Z.

(** What [pickRandom items] returns when [Math.random()] returns [r]. *)
Definition pickedBy {A : Type} (items : list A) (r : JsNumber.t) : option A :=
  arrayGet items
    (JsNumber.floor (JsNumber.mul r (JsNumber.ofZ (Z.of_nat (length items))))).

(** The exercise the [i]-th coming draw of [g] selects from [pool]. *)
Definition candidate (pool : list Exercise) (g : Rng) (i : nat)
  : option Exercise :=
  pickedBy pool (draws g (i + pos g)).

(** The [k]-th coming draw offers an exercise whose id is not the
    current one. *)
Definition offersOther (pool : list Exercise) (current : Exercise)
    (g : Rng) (k : nat) : bool :=
  match candidate pool g k with
  | Some e => negb (id e =? id current)%N
  | None => false
  end.

(** The card shows a verdict exactly when it has been checked. *)
Definition verdictMatchesChecked (s : CardState) : Prop :=
  checked s = match isCorrect s with Some _ => true | None => false end.

(** The key a digit ([0] to [9]) is typed with. *)
Definition digitKey (k : nat) : jsstring := [(48 + N.of_nat k)%N].

(** Whether the replacement of white-space runs is inside a run once it
    has read [s], having started with [inRun]. *)
Fixpoint runStateAfter (inRun : bool) (s : jsstring) : bool :=
  match s with
  | [] => inRun
  | c :: r => runStateAfter (JsString.isWhiteSpace c) r
  end.

(** Strings made of white space only. *)
Definition allWhiteSpace (s : jsstring) : bool :=
  forallb JsString.isWhiteSpace s.

(** What the handlers of one event may do to the card state: they edit
    the value and nothing else, or they record a verdict on the value the
    render closed over, which then is not blank. *)
Definition editsValueOnly (s s' : CardState) : Prop :=
  checked s' = checked s /\ isCorrect s' = isCorrect s.

Definition recordsVerdict (exercise : Exercise) (s s' : CardState) : Prop :=
  value s' = value s /\ checked s' = true
  /\ isCorrect s' = Some (checkAnswer (value s) (answer exercise))
  /\ JsString.truthy (JsString.trim (value s)) = true.

(** ** Sample data, after the examples of the specification *)

Definition sampleChoices : list jsstring :=
  [JsString.lit "dom"; JsString.lit "kot"; JsString.lit "pies"].

Definition sampleChoiceExercise : Exercise :=
  {| id := 1; type := JsString.lit "word"; prompt := JsString.lit "casa";
     answer := JsString.lit "dom"; choices := Some sampleChoices;
     explanation := None |}.

Definition sampleTextExercise : Exercise :=
  {| id := 2; type := JsString.lit "translate";
     prompt := JsString.lit "casa"; answer := JsString.lit "dom";
     choices := None; explanation := None |}.

(** A tape on which every draw is the Number [r]. *)
Definition constantTape (r : JsNumber.t) : Rng :=
  {| draws := fun _ => r; pos := 0 |}.

(** The free-text sample exercise, freshly mounted, alone in its pool. *)
Definition sampleTextApp : AppState :=
  {| exercises := [sampleTextExercise]; current := sampleTextExercise;
     card := resetState; rng := constantTape JsNumber.zero |}.

(** The same exercise with the answer typed in, before and after the
    check (whose confetti has taken its draws). *)
Definition sampleAnsweredApp : AppState :=
  {| exercises := [sampleTextExercise]; current := sampleTextExercise;
     card := {| value := JsString.lit "dom"; checked := false;
                isCorrect := None |};
     rng := constantTape JsNumber.zero |}.

Definition sampleCheckedApp : AppState :=
  {| exercises := [sampleTextExercise]; current := sampleTextExercise;
     card := {| value := JsString.lit "dom"; checked := true;
                isCorrect := Some true |};
     rng := skip 840 (constantTape JsNumber.zero) |}.

(** A pool of two, the first exercise checked, on a tape that always
    draws 0.5; and the application once [advance] has moved on. *)
Definition sampleTwoApp : AppState :=
  {| exercises := [sampleChoiceExercise; sampleTextExercise];
     current := sampleChoiceExercise;
     card := {| value := JsString.lit "dom"; checked := true;
                isCorrect := Some true |};
     rng := constantTape JsNumber.lit_0_5 |}.

Definition sampleNextApp : AppState :=
  {| exercises := [sampleChoiceExercise; sampleTextExercise];
     current := sampleTextExercise;
     card := resetState;
     rng := skip 1 (constantTape JsNumber.lit_0_5) |}.


(** A mounted card of 700 by 400 pixels, and the burst shot on it when
    every draw is 0.5. *)
Definition sampleDom : Confetti.Dom :=
  {| Confetti.canvasRef :=
       Some {| Confetti.width := JsNumber.ofZ 300;
               Confetti.height := JsNumber.ofZ 150;
               Confetti.drawn := [] |};
     Confetti.cardRect := Some (JsNumber.ofZ 700, JsNumber.ofZ 400);
     Confetti.context2d := true |}.

Definition sampleSim : Confetti.Sim :=
  let cv := {| Confetti.width := JsNumber.floor (JsNumber.ofZ 700);
               Confetti.height := JsNumber.floor (JsNumber.ofZ 400);
               Confetti.drawn := [] |} in
  {| Confetti.canvas := cv;
     Confetti.pieces :=
       fst (Confetti.spawn 120 cv (constantTape JsNumber.lit_0_5));
     Confetti.frame := 0;
     Confetti.scheduled := true |}.

(** The free-text sample application as [mount] leaves it on a tape of
    zeros, and the same once the right answer is typed and checked. *)
Definition sampleMountedApp : AppState :=
  {| exercises := [sampleTextExercise]; current := sampleTextExercise;
     card := resetState; rng := skip 1 (constantTape JsNumber.zero) |}.

Definition sampleMountedCheckedApp : AppState :=
  {| exercises := [sampleTextExercise]; current := sampleTextExercise;
     card := {| value := JsString.lit "dom"; checked := true;
                isCorrect := Some true |};
     rng := skip 840 (skip 1 (constantTape JsNumber.zero)) |}.

(** * Properties *)

(** ** Strings and the matcher *)

Lemma jsstring_eqb_eq (a b : jsstring) : JsString.eqb a b = true <-> a = b.
Proof.
  unfold JsString.eqb.
  destruct (list_eq_dec N.eq_dec a b); split; congruence.
Qed.

Lemma jsstring_eqb_refl (a : jsstring) : JsString.eqb a a = true.
Proof. now apply jsstring_eqb_eq. Qed.

Lemma jsstring_eqb_neq (a b : jsstring) : JsString.eqb a b = false <-> a <> b.
Proof.
  unfold JsString.eqb.
  destruct (list_eq_dec N.eq_dec a b); split; congruence.
Qed.

Lemma checkAnswer_iff (user correct : jsstring) :
  checkAnswer user correct = true <-> normalize user = normalize correct.
Proof. apply jsstring_eqb_eq. Qed.

(** C4, as the specification words it, fails: an inner run of white space
    collapses to one space and does not vanish, so [" Dom  EK "]
    normalizes to ["dom ek"], which is not ["domek"]. *)
Lemma spec_example_does_not_match :
  checkAnswer (JsString.lit " Dom  EK ") (JsString.lit "domek") = false.
Proof. reflexivity. Qed.

(** C4 (amended): two strings whose normal forms (trim, lower case, runs
    of white space collapsed to one space) are identical match, and only
    those; in particular [" Dom  EK "] matches ["dom ek"]. *)
Theorem equal_normal_forms_match :
  forall user correct : jsstring,
    normalize user = normalize correct ->
    checkAnswer user correct = true
    /\ normalize (JsString.lit " Dom  EK ") = JsString.lit "dom ek"
    /\ checkAnswer (JsString.lit " Dom  EK ") (JsString.lit "dom ek") = true.
Proof.
  intros user correct H. split; [now apply checkAnswer_iff|].
  split; reflexivity.
Qed.

Lemma equal_normal_forms_match_witness :
  checkAnswer (JsString.lit "  KOT") (JsString.lit "kot ") = true
  /\ normalize (JsString.lit " Dom  EK ") = JsString.lit "dom ek"
  /\ checkAnswer (JsString.lit " Dom  EK ") (JsString.lit "dom ek") = true.
Proof.
  apply (equal_normal_forms_match
           (JsString.lit "  KOT") (JsString.lit "kot ")).
  reflexivity.
Defined.

(** ** Keyboard navigation of the choices *)

Section Arrows.

Variable exercise : Exercise.
Variable cs : list jsstring.
Hypothesis choices_cs : choices exercise = Some cs.
Hypothesis cs_not_nil : cs <> [].

Let len : Z := Z.of_nat (length cs).

Lemma len_positive : (0 < len)%Z.
Proof. subst len. destruct cs; [congruence | simpl length; lia]. Qed.

Lemma hasChoices_true : hasChoices exercise = true.
Proof.
  unfold hasChoices. rewrite choices_cs.
  destruct cs; [congruence | reflexivity].
Qed.

Lemma findIndexFrom_range (p : jsstring -> bool) (l : list jsstring) (i : Z) :
  (0 <= i)%Z ->
  findIndexFrom p i l = (-1)%Z
  \/ (i <= findIndexFrom p i l < i + Z.of_nat (length l))%Z.
Proof.
  revert i. induction l as [|a l IH]; intros i Hi; simpl.
  - now left.
  - destruct (p a).
    + right. lia.
    + destruct (IH (i + 1)%Z) as [E | R]; [lia | now left | right; lia].
Qed.

Lemma baseIndex_range (s : CardState) : (0 <= baseIndex cs s < len)%Z.
Proof.
  pose proof len_positive as Hl. unfold baseIndex, findIndex.
  destruct (findIndexFrom_range (fun c => JsString.eqb c (value s)) cs 0)
    as [E | R]; [lia | rewrite E; simpl; lia |].
  fold len in R.
  destruct (0 <=? _)%Z; lia.
Qed.

Lemma setValueAt_in_range (i : Z) (b : Batch) :
  (0 <= i < len)%Z ->
  exists c, nth_error cs (Z.to_nat i) = Some c
            /\ setValueAt cs i b = setValue c b.
Proof.
  intros Hi. unfold setValueAt.
  destruct (nth_error cs (Z.to_nat i)) as [c|] eqn:E.
  - now exists c.
  - apply nth_error_None in E. subst len. lia.
Qed.

Lemma arrowDown_batch (s : CardState) (b : Batch) :
  handleKeyDown exercise s key_ArrowDown b
  = setValueAt cs ((baseIndex cs s + 1) mod len) (emit PreventDefault b).
Proof.
  pose proof len_positive as Hl.
  unfold handleKeyDown.
  change (JsString.eqb key_ArrowDown key_Enter) with false.
  rewrite hasChoices_true, choices_cs.
  change (keyNumber key_ArrowDown) with (@None N).
  change (JsString.eqb key_ArrowDown key_ArrowDown) with true.
  cbv beta iota zeta. simpl orb. cbv iota.
  fold len. destruct (len =? 0)%Z eqn:E; [apply Z.eqb_eq in E; lia|].
  reflexivity.
Qed.

Lemma arrowUp_batch (s : CardState) (b : Batch) :
  handleKeyDown exercise s key_ArrowUp b
  = setValueAt cs ((baseIndex cs s - 1 + len) mod len) (emit PreventDefault b).
Proof.
  pose proof len_positive as Hl.
  unfold handleKeyDown.
  change (JsString.eqb key_ArrowUp key_Enter) with false.
  rewrite hasChoices_true, choices_cs.
  change (keyNumber key_ArrowUp) with (@None N).
  change (JsString.eqb key_ArrowUp key_ArrowDown) with false.
  change (JsString.eqb key_ArrowUp key_ArrowUp) with true.
  cbv beta iota zeta. simpl orb. cbv iota.
  fold len. destruct (len =? 0)%Z eqn:E; [apply Z.eqb_eq in E; lia|].
  reflexivity.
Qed.

Lemma afterArrowDown (s : CardState) :
  nth_error cs (Z.to_nat ((baseIndex cs s + 1) mod len))
  = Some (value (afterKey exercise key_ArrowDown s)).
Proof.
  pose proof len_positive as Hl. pose proof (baseIndex_range s) as Hb.
  unfold afterKey, handleKey, handleEvent. rewrite arrowDown_batch.
  destruct (setValueAt_in_range ((baseIndex cs s + 1) mod len)
              (emit PreventDefault (begin s))) as (c & Hc & ->).
  - apply Z.mod_pos_bound; lia.
  - now rewrite Hc.
Qed.

Lemma afterArrowUp (s : CardState) :
  nth_error cs (Z.to_nat ((baseIndex cs s - 1 + len) mod len))
  = Some (value (afterKey exercise key_ArrowUp s)).
Proof.
  pose proof len_positive as Hl. pose proof (baseIndex_range s) as Hb.
  unfold afterKey, handleKey, handleEvent. rewrite arrowUp_batch.
  destruct (setValueAt_in_range ((baseIndex cs s - 1 + len) mod len)
              (emit PreventDefault (begin s))) as (c & Hc & ->).
  - apply Z.mod_pos_bound; lia.
  - now rewrite Hc.
Qed.

Lemma findIndexFrom_none (v : jsstring) (l : list jsstring) (i : Z) :
  ~ In v l -> findIndexFrom (fun c => JsString.eqb c v) i l = (-1)%Z.
Proof.
  revert i. induction l as [|a l IH]; intros i Hn; simpl; [reflexivity|].
  destruct (JsString.eqb a v) eqn:E.
  - apply jsstring_eqb_eq in E. subst. exfalso. apply Hn. now left.
  - apply IH. intros H. apply Hn. now right.
Qed.

Lemma findIndexFrom_nth (l : list jsstring) (k : nat) (v : jsstring) (i : Z) :
  NoDup l -> nth_error l k = Some v ->
  findIndexFrom (fun c => JsString.eqb c v) i l = (i + Z.of_nat k)%Z.
Proof.
  revert k i. induction l as [|a l IH]; intros k i Hnd Hk.
  - destruct k; discriminate.
  - inversion Hnd as [|? ? Hna Hnd']; subst. simpl.
    destruct k as [|k]; simpl in Hk.
    + injection Hk as ->. rewrite jsstring_eqb_refl. lia.
    + destruct (JsString.eqb a v) eqn:E.
      * apply jsstring_eqb_eq in E. subst.
        exfalso. apply Hna. eapply nth_error_In; eassumption.
      * rewrite (IH k (i + 1)%Z Hnd' Hk). lia.
Qed.

Lemma baseIndex_unselected (s : CardState) :
  ~ In (value s) cs -> baseIndex cs s = 0%Z.
Proof.
  intros H. unfold baseIndex, findIndex.
  now rewrite findIndexFrom_none.
Qed.

Lemma baseIndex_selected (s : CardState) (k : nat) :
  NoDup cs -> nth_error cs k = Some (value s) -> baseIndex cs s = Z.of_nat k.
Proof.
  intros Hnd Hk. unfold baseIndex, findIndex.
  rewrite (findIndexFrom_nth cs k (value s) 0 Hnd Hk).
  destruct (0 <=? _)%Z eqn:E; [lia | apply Z.leb_gt in E; lia].
Qed.

End Arrows.

(** C1, as the specification words it, fails: with nothing selected the
    base index is 0 and [ArrowDown] moves on from it, so the first press
    selects ["kot"] (index 1), not ["dom"] (index 0). *)
Lemma arrowDown_unselected_skips_first :
  ~ In (value resetState) sampleChoices
  /\ value (afterKey sampleChoiceExercise key_ArrowDown resetState)
     = JsString.lit "kot"
  /\ nth_error sampleChoices 0
     <> Some (value (afterKey sampleChoiceExercise key_ArrowDown resetState)).
Proof.
  split; [|split].
  - simpl. intros [H | [H | [H | []]]]; discriminate.
  - reflexivity.
  - discriminate.
Qed.

(** C1 (amended): in multiple-choice mode with [n] distinct choices and
    none of them selected, [ArrowDown] selects index [1 mod n] (index 1
    of 3), a further [ArrowDown] selects index [2 mod n] (index 2 of 3),
    and [ArrowUp], pressed with nothing selected or with index 0
    selected, wraps to the last index [n - 1]. *)
Theorem arrows_move_from_base_index :
  forall (exercise : Exercise) (cs : list jsstring) (s : CardState),
    choices exercise = Some cs -> cs <> [] -> NoDup cs ->
    ~ In (value s) cs ->
    let n := length cs in
    let s1 := afterKey exercise key_ArrowDown s in
    let s2 := afterKey exercise key_ArrowDown s1 in
    nth_error cs (1 mod n) = Some (value s1)
    /\ nth_error cs (2 mod n) = Some (value s2)
    /\ nth_error cs (n - 1) = Some (value (afterKey exercise key_ArrowUp s))
    /\ (forall s0, nth_error cs 0 = Some (value s0) ->
        nth_error cs (n - 1)
        = Some (value (afterKey exercise key_ArrowUp s0))).
Proof.
  intros exercise cs s Hc Hne Hnd Hun n s1 s2.
  assert (Hn : (0 < n)%nat)
    by (subst n; destruct cs; [congruence | simpl; lia]).
  assert (Hlen : (0 < Z.of_nat n)%Z) by lia.
  assert (H1 : nth_error cs (1 mod n) = Some (value s1)).
  { subst s1. rewrite <- (afterArrowDown exercise cs Hc Hne s).
    rewrite (baseIndex_unselected cs s Hun). fold n.
    change (0 + 1)%Z with (Z.of_nat 1).
    now rewrite <- Nat2Z.inj_mod, Nat2Z.id. }
  assert (Hup : forall t, baseIndex cs t = 0%Z ->
            nth_error cs (n - 1)
            = Some (value (afterKey exercise key_ArrowUp t))).
  { intros t Ht. rewrite <- (afterArrowUp exercise cs Hc Hne t).
    rewrite Ht. fold n.
    replace (0 - 1 + Z.of_nat n)%Z with (Z.of_nat n - 1)%Z by lia.
    rewrite Z.mod_small by lia.
    f_equal. lia. }
  split; [exact H1|]. split; [|split].
  - subst s2. rewrite <- (afterArrowDown exercise cs Hc Hne s1).
    rewrite (baseIndex_selected cs s1 (1 mod n) Hnd H1). fold n.
    change 1%Z with (Z.of_nat 1).
    rewrite <- Nat2Z.inj_add, <- Nat2Z.inj_mod, Nat2Z.id.
    now rewrite Nat.Div0.add_mod_idemp_l.
  - apply Hup. now apply baseIndex_unselected.
  - intros s0 H0. apply Hup.
    unfold baseIndex, findIndex.
    destruct cs as [|c0 cs']; [congruence|].
    simpl in H0. injection H0 as ->. simpl.
    now rewrite jsstring_eqb_refl.
Qed.

Lemma arrows_move_from_base_index_witness :
  let s := resetState in
  let n := length sampleChoices in
  let s1 := afterKey sampleChoiceExercise key_ArrowDown s in
  let s2 := afterKey sampleChoiceExercise key_ArrowDown s1 in
  nth_error sampleChoices (1 mod n) = Some (value s1)
  /\ nth_error sampleChoices (2 mod n) = Some (value s2)
  /\ nth_error sampleChoices (n - 1)
     = Some (value (afterKey sampleChoiceExercise key_ArrowUp s))
  /\ (forall s0, nth_error sampleChoices 0 = Some (value s0) ->
      nth_error sampleChoices (n - 1)
      = Some (value (afterKey sampleChoiceExercise key_ArrowUp s0))).
Proof.
  apply (arrows_move_from_base_index sampleChoiceExercise sampleChoices
           resetState).
  - reflexivity.
  - discriminate.
  - repeat constructor; simpl; intuition discriminate.
  - simpl. intuition discriminate.
Defined.

(** ** The check guard, the Enter key and the checked state *)

Lemma depsChanged_same (e : Exercise) : depsChanged e e = false.
Proof.
  unfold depsChanged. rewrite N.eqb_refl.
  destruct (snd (effectDeps e)); [now rewrite Nat.eqb_refl | reflexivity].
Qed.

(** An event whose handlers do not call [onNext] only replaces the card
    state. *)
Lemma commit_without_next (fuel : nat) (a : AppState) (b : Batch) :
  nextCalls b = 0 ->
  commit fuel a b
  = Normal {| exercises := exercises a; current := current a;
              card := state b; rng := afterFeedback (signals b) (rng a) |}.
Proof.
  intros H. unfold commit. rewrite H. simpl.
  now rewrite depsChanged_same.
Qed.

Lemma commit_ext (fuel : nat) (a : AppState) (b1 b2 : Batch) :
  state b1 = state b2 -> nextCalls b1 = nextCalls b2 ->
  afterFeedback (signals b1) (rng a) = afterFeedback (signals b2) (rng a) ->
  commit fuel a b1 = commit fuel a b2.
Proof. intros Hs Hn Hg. unfold commit. now rewrite Hs, Hn, Hg. Qed.

Lemma app_eta (a : AppState) :
  {| exercises := exercises a; current := current a;
     card := card a; rng := rng a |} = a.
Proof. now destruct a. Qed.

Lemma enter_batch (exercise : Exercise) (s : CardState) :
  handleEvent exercise s (handleKey key_Enter)
  = handleEnter exercise s (emit PreventDefault (begin s)).
Proof. reflexivity. Qed.

Lemma handleCheck_state (exercise : Exercise) (s : CardState) (b : Batch) :
  state (handleCheck exercise s b)
  = {| value := value (state b); checked := true;
       isCorrect := Some (checkAnswer (value s) (answer exercise)) |}
  /\ nextCalls (handleCheck exercise s b) = nextCalls b.
Proof.
  unfold handleCheck.
  destruct (checkAnswer (value s) (answer exercise)); now split.
Qed.

(** C2: whenever the trimmed value is empty, the check operation is a
    no-op.  The Check button is disabled, so the click changes nothing
    at all; and the Enter key, which checks an unchecked card, leaves the
    state as it is and asks for no next exercise. *)
Theorem check_is_noop_on_empty_value :
  forall (fuel : nat) (a : AppState),
    JsString.trim (value (card a)) = [] ->
    step fuel a check = Normal a
    /\ handleEvent (current a) (card a) check = begin (card a)
    /\ (checked (card a) = false ->
        step fuel a (handleKey key_Enter) = Normal a).
Proof.
  intros fuel a H.
  assert (Hb : handleEvent (current a) (card a) check = begin (card a)).
  { unfold check, handleEvent, checkDisabled. now rewrite H. }
  split; [|split].
  - unfold step. rewrite Hb, commit_without_next by reflexivity.
    simpl. apply f_equal, app_eta.
  - exact Hb.
  - intros Hc. unfold step. rewrite enter_batch. unfold handleEnter.
    rewrite Hc, H. simpl.
    rewrite commit_without_next by reflexivity.
    simpl. apply f_equal, app_eta.
Qed.

Lemma check_is_noop_on_empty_value_witness :
  let a := {| exercises := [sampleTextExercise];
              current := sampleTextExercise;
              card := {| value := JsString.lit "   "; checked := false;
                         isCorrect := None |};
              rng := constantTape JsNumber.zero |} in
  step 0 a check = Normal a
  /\ handleEvent (current a) (card a) check = begin (card a)
  /\ (checked (card a) = false ->
      step 0 a (handleKey key_Enter) = Normal a).
Proof.
  intros a. apply (check_is_noop_on_empty_value 0 a). reflexivity.
Defined.

(** C3, as the specification words it, fails: after a correct check the
    value can still be edited and the Check button still runs
    [handleCheck], which overwrites [isCorrect]. *)
Lemma recheck_overwrites_isCorrect :
  exists a1 a2,
    runEvents 0 sampleTextApp
      [setAnswerValue (JsString.lit "dom"); check;
       setAnswerValue (JsString.lit "kot")] = Normal a1
    /\ checked (card a1) = true
    /\ isCorrect (card a1) = Some true
    /\ step 0 a1 check = Normal a2
    /\ isCorrect (card a2) = Some false.
Proof.
  eexists. eexists.
  split; [reflexivity|].
  split; [reflexivity|].
  split; [reflexivity|].
  split; reflexivity.
Qed.

(** C3 (amended): once checked, editing the answer or selecting a choice
    leaves [checked] and [isCorrect] as they are.  The check operation
    keeps [checked] and the value; with an empty trimmed value it changes
    nothing, otherwise it sets [isCorrect] to the match of the present
    value against the answer.  So when [isCorrect] already records that
    match, the check leaves the interaction state ([value], [checked],
    [isCorrect]), the exercise and the pool as they are; what it still
    does is the feedback, and after a match the confetti takes its 840
    draws from the generator again. *)
Theorem checked_state_transitions :
  forall (fuel : nat) (a : AppState),
    checked (card a) = true ->
    (forall text, exists a',
        step fuel a (setAnswerValue text) = Normal a'
        /\ checked (card a') = true
        /\ isCorrect (card a') = isCorrect (card a))
    /\ (forall index, exists a',
        step fuel a (selectChoice index) = Normal a'
        /\ checked (card a') = true
        /\ isCorrect (card a') = isCorrect (card a))
    /\ (exists a',
        step fuel a check = Normal a'
        /\ checked (card a') = true
        /\ value (card a') = value (card a)
        /\ isCorrect (card a')
           = if checkDisabled (card a) then isCorrect (card a)
             else Some (checkAnswer (value (card a)) (answer (current a))))
    /\ (isCorrect (card a)
        = Some (checkAnswer (value (card a)) (answer (current a))) ->
        exists a',
          step fuel a check = Normal a'
          /\ card a' = card a
          /\ current a' = current a
          /\ exercises a' = exercises a
          /\ rng a'
             = if negb (checkDisabled (card a))
                  && checkAnswer (value (card a)) (answer (current a))
               then skip 840 (rng a) else rng a).
Proof.
  intros fuel a Hc.
  split; [|split; [|split]].
  - intros text. unfold step, setAnswerValue, handleEvent.
    destruct (hasChoices (current a));
      rewrite commit_without_next by reflexivity;
      eexists; split; try reflexivity; simpl; auto.
  - intros index. unfold step, selectChoice, handleEvent.
    destruct (hasChoices (current a));
      [destruct (choices (current a)) as [cs|];
       [destruct (nth_error cs index)|]|];
      rewrite commit_without_next by reflexivity;
      eexists; split; try reflexivity; simpl; auto.
  - unfold step, check, handleEvent.
    destruct (checkDisabled (card a)).
    + rewrite commit_without_next by reflexivity.
      eexists; split; [reflexivity|]. simpl. auto.
    + destruct (handleCheck_state (current a) (card a) (begin (card a)))
        as [Hs Hn].
      rewrite commit_without_next by (rewrite Hn; reflexivity).
      eexists; split; [reflexivity|]. simpl. rewrite Hs. simpl. auto.
  - intros Hi. unfold step, check, handleEvent.
    destruct (checkDisabled (card a)).
    + rewrite commit_without_next by reflexivity.
      eexists; split; [reflexivity|]. simpl. auto.
    + destruct (handleCheck_state (current a) (card a) (begin (card a)))
        as [Hs Hn].
      rewrite commit_without_next by (rewrite Hn; reflexivity).
      eexists; split; [reflexivity|].
      cbn [card current exercises rng negb andb].
      rewrite Hs. repeat split.
      * destruct a as [pool cur [v c r] g]. simpl in *. now subst.
      * unfold handleCheck.
        destruct (checkAnswer (value (card a)) (answer (current a)));
          reflexivity.
Qed.

Lemma checked_state_transitions_witness :
  let a := {| exercises := [sampleTextExercise];
              current := sampleTextExercise;
              card := {| value := JsString.lit "dom"; checked := true;
                         isCorrect := Some true |};
              rng := constantTape JsNumber.zero |} in
  (forall text, exists a',
      step 0 a (setAnswerValue text) = Normal a'
      /\ checked (card a') = true
      /\ isCorrect (card a') = isCorrect (card a))
  /\ (forall index, exists a',
      step 0 a (selectChoice index) = Normal a'
      /\ checked (card a') = true
      /\ isCorrect (card a') = isCorrect (card a))
  /\ (exists a',
      step 0 a check = Normal a'
      /\ checked (card a') = true
      /\ value (card a') = value (card a)
      /\ isCorrect (card a')
         = if checkDisabled (card a) then isCorrect (card a)
           else Some (checkAnswer (value (card a)) (answer (current a))))
  /\ (isCorrect (card a)
      = Some (checkAnswer (value (card a)) (answer (current a))) ->
      exists a',
        step 0 a check = Normal a'
        /\ card a' = card a
        /\ current a' = current a
        /\ exercises a' = exercises a
        /\ rng a'
           = if negb (checkDisabled (card a))
                && checkAnswer (value (card a)) (answer (current a))
             then skip 840 (rng a) else rng a).
Proof.
  intros a. apply (checked_state_transitions 0 a). reflexivity.
Defined.

(** C6: the Enter key, in every state.  On an unchecked card with a
    non-empty trimmed value it acts as the check operation (same state
    change, same feedback, after [preventDefault]); on an unchecked card
    with an empty trimmed value it changes nothing; on a checked card it
    acts as [advance]. *)
Theorem enter_checks_or_advances :
  forall (fuel : nat) (a : AppState),
    (checked (card a) = false ->
     JsString.truthy (JsString.trim (value (card a))) = true ->
     step fuel a (handleKey key_Enter) = step fuel a check
     /\ signals (handleEvent (current a) (card a) (handleKey key_Enter))
        = PreventDefault
          :: signals (handleEvent (current a) (card a) check))
    /\ (checked (card a) = false ->
        JsString.truthy (JsString.trim (value (card a))) = false ->
        step fuel a (handleKey key_Enter) = Normal a)
    /\ (checked (card a) = true ->
        step fuel a (handleKey key_Enter) = step fuel a advance
        /\ nextCalls (handleEvent (current a) (card a) (handleKey key_Enter))
           = 1).
Proof.
  intros fuel a. split; [|split].
  - intros Hc Hv. unfold step. rewrite enter_batch.
    unfold handleEnter, check, handleEvent, checkDisabled.
    rewrite Hc, Hv. simpl negb. cbv iota.
    unfold handleCheck.
    destruct (checkAnswer (value (card a)) (answer (current a)));
      split; reflexivity.
  - intros Hc Hv. unfold step. rewrite enter_batch. unfold handleEnter.
    rewrite Hc, Hv. simpl.
    rewrite commit_without_next by reflexivity.
    simpl. apply f_equal, app_eta.
  - intros Hc. unfold step. rewrite enter_batch. unfold handleEnter.
    rewrite Hc. simpl. split; reflexivity.
Qed.

(** ** Binary64: the floor of a product with a value below 1 *)

Module Binary64.

Local Open Scope Z_scope.

Lemma digits_bounds (p : positive) :
  2 ^ (Zpos (digits2_pos p) - 1) <= Zpos p < 2 ^ Zpos (digits2_pos p).
Proof.
  induction p as [p IH | p IH |]; simpl digits2_pos.
  - rewrite Pos2Z.inj_succ.
    replace (Z.succ (Zpos (digits2_pos p)) - 1) with (Z.succ (Zpos (digits2_pos p) - 1)) by lia.
    rewrite !Z.pow_succ_r by lia. lia.
  - rewrite Pos2Z.inj_succ.
    replace (Z.succ (Zpos (digits2_pos p)) - 1) with (Z.succ (Zpos (digits2_pos p) - 1)) by lia.
    rewrite !Z.pow_succ_r by lia. lia.
  - simpl. lia.
Qed.

Lemma iter_pos_nat {A : Type} (f : A -> A) (p : positive) (x : A) :
  iter_pos f p x = Nat.iter (Pos.to_nat p) f x.
Proof.
  revert x. induction p as [p IH | p IH |]; intros x; cbn [iter_pos].
  - rewrite !IH. rewrite Pos2Nat.inj_xI.
    replace (S (2 * Pos.to_nat p))%nat with (Pos.to_nat p + (Pos.to_nat p + 1))%nat by lia.
    rewrite !Nat.iter_add. reflexivity.
  - rewrite !IH. rewrite Pos2Nat.inj_xO.
    replace (2 * Pos.to_nat p)%nat with (Pos.to_nat p + Pos.to_nat p)%nat by lia.
    rewrite Nat.iter_add. reflexivity.
  - reflexivity.
Qed.

Lemma shr_1_spec (mrs : shr_record) :
  0 <= shr_m mrs ->
  shr_m (shr_1 mrs) = shr_m mrs / 2
  /\ shr_r (shr_1 mrs) = Z.odd (shr_m mrs).
Proof.
  destruct mrs as [m r s]. simpl. intros Hm.
  rewrite <- Z.div2_div.
  destruct m as [|[p|p|]|p]; simpl; try lia; auto.
Qed.

Lemma shr_iter_spec (k : nat) (mrs : shr_record) :
  0 <= shr_m mrs ->
  shr_m (Nat.iter k shr_1 mrs) = shr_m mrs / 2 ^ Z.of_nat k
  /\ shr_r (Nat.iter (S k) shr_1 mrs) = Z.odd (shr_m mrs / 2 ^ Z.of_nat k).
Proof.
  intros Hm.
  assert (H : shr_m (Nat.iter k shr_1 mrs) = shr_m mrs / 2 ^ Z.of_nat k).
  { induction k as [|k IH].
    - simpl. now rewrite Z.div_1_r.
    - rewrite Nat.iter_succ.
      destruct (shr_1_spec (Nat.iter k shr_1 mrs)) as [E _].
      + rewrite IH. apply Z.div_pos; [lia | apply Z.pow_pos_nonneg; lia].
      + rewrite E, IH, Nat2Z.inj_succ, Z.pow_succ_r by lia.
        rewrite Z.div_div by (try apply Z.pow_pos_nonneg; lia).
        f_equal. lia. }
  split; [exact H|].
  rewrite Nat.iter_succ.
  destruct (shr_1_spec (Nat.iter k shr_1 mrs)) as [_ E].
  - rewrite H. apply Z.div_pos; [lia | apply Z.pow_pos_nonneg; lia].
  - now rewrite E, H.
Qed.

Lemma rne_cases (q : Z) (mrs : shr_record) :
  round_nearest_even q (loc_of_shr_record mrs) = q
  \/ (round_nearest_even q (loc_of_shr_record mrs) = q + 1
      /\ shr_r mrs = true).
Proof.
  destruct mrs as [m [|] [|]]; simpl; try destruct (Z.even q); auto.
Qed.

Lemma shr_fexp_spec (m e : Z) :
  0 <= m ->
  let D := fexp 53 1024 (Zdigits2 m + e) - e in
  (D <= 0
   /\ shr_fexp 53 1024 m e loc_Exact
      = ({| shr_m := m; shr_r := false; shr_s := false |}, e))
  \/ (0 < D
      /\ exists mrs,
          shr_fexp 53 1024 m e loc_Exact = (mrs, e + D)
          /\ shr_m mrs = m / 2 ^ D
          /\ (shr_r mrs = true -> Z.odd (m / 2 ^ (D - 1)) = true)).
Proof.
  intros Hm D. unfold shr_fexp. fold D. unfold shr.
  destruct D as [|p|p] eqn:ED.
  - left. split; [lia | reflexivity].
  - right. split; [lia|].
    exists (iter_pos shr_1 p (shr_record_of_loc m loc_Exact)).
    split; [reflexivity|].
    rewrite iter_pos_nat.
    destruct (Pos2Nat.is_succ p) as [k Hk]. rewrite Hk.
    assert (HZ : Zpos p = Z.of_nat (S k)) by lia.
    destruct (shr_iter_spec (S k) (shr_record_of_loc m loc_Exact)) as [A _];
      [simpl; lia|].
    destruct (shr_iter_spec k (shr_record_of_loc m loc_Exact)) as [_ B];
      [simpl; lia|].
    simpl shr_m in A, B. rewrite HZ. split; [exact A|].
    intros Hr. rewrite B in Hr.
    replace (Z.of_nat (S k) - 1) with (Z.of_nat k) by lia. exact Hr.
  - left. split; [lia | reflexivity].
Qed.

Lemma below_exponent (n m e : Z) :
  0 < m -> n <= 2 ^ 53 -> below n m e -> e < 53.
Proof.
  intros Hm Hn [He Hb].
  assert (H1 : 2 ^ (e + 1200) < 2 ^ (53 + 1200)).
  { rewrite (Z.pow_add_r 2 53 1200) by lia.
    assert (0 < 2 ^ (e + 1200)) by (apply Z.pow_pos_nonneg; lia).
    assert (0 < 2 ^ 1200) by (apply Z.pow_pos_nonneg; lia).
    nia. }
  apply Z.pow_lt_mono_r_iff in H1; lia.
Qed.

Lemma finish_below (n q e : Z) :
  0 <= q -> n <= 2 ^ 53 -> below n q e ->
  let x :=
    let '(mrs, e') := shr_fexp 53 1024 q e loc_Exact in
    match shr_m mrs with
    | Z0 => S754_zero false
    | Zpos m => if e' <=? 1024 - 53 then S754_finite false m e'
                else S754_infinity false
    | Zneg _ => S754_nan
    end in
  x = S754_zero false
  \/ exists m e', x = S754_finite false m e' /\ below n (Zpos m) e'.
Proof.
  intros Hq Hn Hb x. subst x.
  destruct (shr_fexp_spec q e Hq) as [[HD H1] | [HD (mrs & H1 & Hm & _)]];
    rewrite H1.
  - simpl shr_m. destruct q as [|p|p]; [now left | | lia].
    right. exists p, e.
    pose proof (below_exponent n (Zpos p) e ltac:(lia) Hn Hb) as He.
    destruct (e <=? 1024 - 53) eqn:E; [now split|].
    apply Z.leb_gt in E. lia.
  - set (D := fexp 53 1024 (Zdigits2 q + e) - e) in *.
    assert (HT : 0 < 2 ^ D) by (apply Z.pow_pos_nonneg; lia).
    assert (Hb' : below n (shr_m mrs) (e + D)).
    { destruct Hb as [He Hb]. split; [lia|].
      rewrite Hm.
      replace (e + D + 1200) with (D + (e + 1200)) by lia.
      rewrite Z.pow_add_r by lia.
      assert (0 < 2 ^ (e + 1200)) by (apply Z.pow_pos_nonneg; lia).
      pose proof (Z.mul_div_le q (2 ^ D) HT).
      nia. }
    assert (Hnn : 0 <= shr_m mrs) by (rewrite Hm; apply Z.div_pos; lia).
    destruct (shr_m mrs) as [|p|p]; [now left | | lia].
    right. exists p, (e + D).
    pose proof (below_exponent n (Zpos p) (e + D) ltac:(lia) Hn Hb') as He.
    destruct (e + D <=? 1024 - 53) eqn:E; [now split|].
    apply Z.leb_gt in E. lia.
Qed.

Lemma odd_half (m H q : Z) :
  0 <= m -> 0 < H -> q = m / (2 * H) -> Z.odd (m / H) = true ->
  (2 * q + 1) * H <= m.
Proof.
  intros Hm HH Hq Ho.
  assert (E : m / H / 2 = q) by (rewrite Z.div_div by lia; subst q; f_equal; lia).
  pose proof (Z.div_mod (m / H) 2 ltac:(lia)) as Hd.
  rewrite Zmod_odd, Ho, E in Hd.
  pose proof (Z.mul_div_le m H HH). nia.
Qed.

Lemma round_product_below (pm : positive) (E n : Z) :
  -1200 <= E -> 1 <= n <= 2 ^ 53 ->
  Zpos pm * 2 ^ (E + 1200) < n * 2 ^ 1200 ->
  Zpos pm * 2 ^ (E + 1200) * 2 ^ 53 <= n * 2 ^ 1200 * (2 ^ 53 - 1) ->
  let x := binary_round_aux 53 1024 false (Zpos pm) E loc_Exact in
  x = S754_zero false
  \/ exists m e, x = S754_finite false m e /\ below n (Zpos m) e.
Proof.
  intros HE Hn Hlt Hle x. subst x. unfold binary_round_aux.
  destruct (shr_fexp_spec (Zpos pm) E ltac:(lia))
    as [[HD H1] | [HD (mrs & H1 & Hq & Hr)]]; rewrite H1.
  - simpl round_nearest_even.
    apply (finish_below n (Zpos pm) E); [lia | lia | now split].
  - set (D := fexp 53 1024 (Zdigits2 (Zpos pm) + E) - E) in *.
    set (q := shr_m mrs) in *.
    assert (HT : 0 < 2 ^ D) by (apply Z.pow_pos_nonneg; lia).
    assert (HP : 0 < 2 ^ (E + 1200)) by (apply Z.pow_pos_nonneg; lia).
    assert (Hq0 : 0 <= q) by (rewrite Hq; apply Z.div_pos; lia).
    assert (Hpow : 2 ^ (E + D + 1200) = 2 ^ D * 2 ^ (E + 1200)).
    { replace (E + D + 1200) with (D + (E + 1200)) by lia.
      apply Z.pow_add_r; lia. }
    pose proof (Z.mul_div_le (Zpos pm) (2 ^ D) HT) as Hfloor.
    rewrite <- Hq in Hfloor.
    apply finish_below; [ | lia | ].
    + destruct (rne_cases q mrs) as [-> | [-> _]]; lia.
    + split; [lia|]. rewrite Hpow.
      destruct (rne_cases q mrs) as [-> | [-> Hup]]; [nia|].
      (* rounding up: the discarded bits are at least half *)
      specialize (Hr Hup).
      assert (HH : 0 < 2 ^ (D - 1)) by (apply Z.pow_pos_nonneg; lia).
      assert (HTH : 2 ^ D = 2 * 2 ^ (D - 1)).
      { replace D with (Z.succ (D - 1)) at 1 by lia.
        apply Z.pow_succ_r; lia. }
      pose proof (odd_half (Zpos pm) (2 ^ (D - 1)) q ltac:(lia) HH
                    ltac:(rewrite <- HTH; exact Hq) Hr) as Hhalf.
      (* the exponent is the canonical one of the product *)
      pose proof (digits_bounds pm) as [Hdig _].
      assert (Hcase :
        2 ^ 52 * 2 ^ D <= Zpos pm
        \/ 2 ^ 1074 * (2 ^ D * 2 ^ (E + 1200)) = 2 ^ 1200).
      { assert (HDeq : E + D = Z.max (Zpos (digits2_pos pm) + E - 53) (-1074)).
        { unfold D, fexp, emin. simpl Zdigits2. lia. }
        destruct (Z.max_spec (Zpos (digits2_pos pm) + E - 53) (-1074))
          as [[Hc Hmx] | [Hc Hmx]]; rewrite Hmx in HDeq.
        - right. rewrite <- Hpow, <- Z.pow_add_r by lia. f_equal. lia.
        - left. rewrite <- Z.pow_add_r by lia.
          replace (52 + D) with (Zpos (digits2_pos pm) - 1) by lia.
          exact Hdig. }
      set (P := 2 ^ (E + 1200)) in *. set (T := 2 ^ D) in *.
      set (H := 2 ^ (D - 1)) in *. set (M := Zpos pm) in *.
      assert (Ha : 2 * (q * T * P) + T * P <= 2 * (M * P)) by nia.
      destruct (Z.lt_ge_cases ((q + 1) * (T * P)) (n * 2 ^ 1200)) as [Hok | Hbad];
        [exact Hok | exfalso].
      assert (Hb : n * 2 ^ 1200 <= 2 ^ 52 * (T * P)).
      { assert (2 * (M * P) * 2 ^ 53 <= 2 * (n * 2 ^ 1200) * (2 ^ 53 - 1)) by lia.
        assert (2 * (n * 2 ^ 1200) - T * P <= 2 * (M * P)) by lia.
        assert ((2 * (n * 2 ^ 1200) - T * P) * 2 ^ 53 <= 2 * (M * P) * 2 ^ 53).
        { apply Z.mul_le_mono_nonneg_r; lia. }
        lia. }
      destruct Hcase as [Hnorm | Hsub].
      * assert (2 ^ 52 * (T * P) <= M * P) by nia. lia.
      * assert (0 < T * P) by lia.
        assert (2 ^ 1200 <= n * 2 ^ 1200) by nia.
        rewrite <- Hsub in *. 
        assert (2 ^ 52 * (T * P) < 2 ^ 1074 * (T * P)).
        { apply Z.mul_lt_mono_pos_r; [lia|]. apply Z.pow_lt_mono_r; lia. }
        lia.
Qed.

Lemma iter_xO_spec (p k : positive) :
  Zpos (Pos.iter xO p k) = Zpos p * 2 ^ Zpos k
  /\ Zpos (digits2_pos (Pos.iter xO p k)) = Zpos (digits2_pos p) + Zpos k.
Proof.
  induction k as [|k IH] using Pos.peano_ind.
  - simpl. split; lia.
  - rewrite Pos.iter_succ. destruct IH as [IH1 IH2].
    cbn [digits2_pos]. rewrite Pos2Z.inj_xO, IH1.
    rewrite !Pos2Z.inj_succ, Z.pow_succ_r, IH2 by lia. split; lia.
Qed.

Lemma ofZ_positive (n : Z) :
  0 < n < 2 ^ 53 ->
  exists m e,
    JsNumber.ofZ n = S754_finite false m e
    /\ -52 <= e <= 0
    /\ Zpos m = n * 2 ^ (- e).
Proof.
  intros [Hn0 Hn]. destruct n as [|p|p]; try lia.
  pose proof (digits_bounds p) as [Hd1 Hd2].
  set (d := Zpos (digits2_pos p)) in *.
  assert (Hd : 1 <= d <= 53).
  { split; [subst d; lia|].
    assert (2 ^ (d - 1) < 2 ^ 53) by lia.
    apply Z.pow_lt_mono_r_iff in H; lia. }
  unfold JsNumber.ofZ, binary_normalize, binary_round.
  assert (Hfexp : fexp JsNumber.prec JsNumber.emax (d + 0) = d - 53).
  { unfold fexp, emin, JsNumber.prec, JsNumber.emax. lia. }
  fold d. rewrite Hfexp.
  assert (Hal : exists mz,
             shl_align p 0 (d - 53) = (mz, d - 53)
             /\ Zpos mz = Zpos p * 2 ^ (53 - d)
             /\ Zpos (digits2_pos mz) = 53).
  { unfold shl_align.
    destruct (d - 53 - 0) as [|k|k] eqn:Ek; try lia.
    - exists p. replace (d - 53) with 0 by lia.
      replace (53 - d) with 0 by lia. fold d. split; [reflexivity|]. lia.
    - exists (Pos.iter xO p k).
      destruct (iter_xO_spec p k) as [A B].
      split; [reflexivity|]. fold d in B.
      replace (53 - d) with (Zpos k) by lia. lia. }
  destruct Hal as (mz & -> & Hmz & Hdz).
  exists mz, (d - 53).
  replace (- (d - 53)) with (53 - d) by lia.
  split; [|split; [lia | exact Hmz]].
  unfold binary_round_aux.
  assert (Hs : shr_fexp JsNumber.prec JsNumber.emax (Zpos mz) (d - 53) loc_Exact
               = ({| shr_m := Zpos mz; shr_r := false; shr_s := false |},
                  d - 53)).
  { unfold shr_fexp, fexp, emin, JsNumber.prec, JsNumber.emax.
    simpl Zdigits2. rewrite Hdz.
    replace (Z.max (53 + (d - 53) - 53) (3 - 1024 - 53) - (d - 53)) with 0
      by lia.
    reflexivity. }
  rewrite Hs. simpl round_nearest_even. rewrite Hs. simpl shr_m.
  unfold JsNumber.emax, JsNumber.prec.
  destruct (d - 53 <=? 1024 - 53) eqn:E; [reflexivity|].
  apply Z.leb_gt in E. lia.
Qed.

Lemma toIndex_ofZ (z : Z) :
  0 <= z < 2 ^ 53 -> JsNumber.toIndex (JsNumber.ofZ z) = Some (Z.to_nat z).
Proof.
  intros [Hz0 Hz].
  destruct (Z.eq_dec z 0) as [-> | Hne]; [reflexivity|].
  destruct (ofZ_positive z ltac:(lia)) as (m & e & -> & He & Hm).
  unfold JsNumber.toIndex.
  assert (HP : 0 < 2 ^ (- e)) by (apply Z.pow_pos_nonneg; lia).
  destruct (0 <=? e) eqn:E0.
  - apply Z.leb_le in E0. assert (e = 0) by lia. subst e.
    simpl in Hm. rewrite Hm. simpl. do 2 f_equal. lia.
  - rewrite Hm, Z.mod_mul, Z.eqb_refl, Z.div_mul by lia. reflexivity.
Qed.

Lemma bounded_range (m : positive) (e : Z) :
  bounded JsNumber.prec JsNumber.emax m e = true ->
  -1074 <= e /\ Zpos m < 2 ^ 53.
Proof.
  unfold bounded, canonical_mantissa. intros Hb.
  apply andb_true_iff in Hb as [Hc _]. apply Z.eqb_eq in Hc.
  unfold fexp, emin, JsNumber.prec, JsNumber.emax in Hc.
  pose proof (digits_bounds m) as [Hd1 Hd2].
  set (d := Zpos (digits2_pos m)) in *.
  assert (Hd : d <= 53) by lia.
  split; [lia|].
  eapply Z.lt_le_trans; [exact Hd2|]. apply Z.pow_le_mono_r; lia.
Qed.

Lemma ltb_one_finite (m : positive) (e : Z) :
  JsNumber.ltb (S754_finite false m e) JsNumber.one = true ->
  e < -52 \/ (e = -52 /\ Zpos m < 2 ^ 52).
Proof.
  unfold JsNumber.ltb, SFltb, JsNumber.one. cbn [SFcompare].
  destruct (Z.compare_spec e (-52)) as [He | He | He].
  - rewrite Pos.compare_cont_spec. unfold Pos.switch_Eq.
    destruct (Pos.compare_spec m 4503599627370496) as [Hm | Hm | Hm];
      try discriminate.
    intros _. right. split; [exact He|].
    apply Pos2Z.pos_lt_pos in Hm. exact Hm.
  - intros _. now left.
  - discriminate.
Qed.

Lemma isUnit_finite (s : bool) (m : positive) (e : Z) :
  JsNumber.isUnit (S754_finite s m e) = true ->
  s = false /\ -1074 <= e < 0 /\ Zpos m < 2 ^ (- e)
  /\ Zpos m * 2 ^ 53 <= (2 ^ 53 - 1) * 2 ^ (- e).
Proof.
  unfold JsNumber.isUnit. destruct s; [discriminate|].
  intros H. apply andb_true_iff in H as [Hb Hl].
  apply bounded_range in Hb as [He Hm].
  apply ltb_one_finite in Hl.
  split; [reflexivity|].
  destruct Hl as [Hl | [-> Hl]].
  - assert (Hp : 2 ^ 53 <= 2 ^ (- e)) by (apply Z.pow_le_mono_r; lia).
    split; [lia|]. split; [lia|].
    apply Z.le_trans with ((2 ^ 53 - 1) * 2 ^ 53).
    + apply Z.mul_le_mono_nonneg_r; lia.
    + apply Z.mul_le_mono_nonneg_l; lia.
  - split; [lia|].
    replace (- -52) with 52 by reflexivity.
    split; [exact Hl|].
    apply Z.le_trans with ((2 ^ 52 - 1) * 2 ^ 53).
    + apply Z.mul_le_mono_nonneg_r; lia.
    + apply Z.leb_le. vm_compute. reflexivity.
Qed.

Lemma floorZ_below (n : Z) (m : positive) (e : Z) :
  below n (Zpos m) e -> 0 <= JsNumber.floorZ false m e < n.
Proof.
  intros [He Hb]. unfold JsNumber.floorZ. simpl cond_Zopp.
  assert (HS : 0 < 2 ^ 1200) by (apply Z.pow_pos_nonneg; lia).
  destruct (0 <=? e) eqn:E0.
  - apply Z.leb_le in E0.
    assert (HP : 0 < 2 ^ e) by (apply Z.pow_pos_nonneg; lia).
    rewrite Z.pow_add_r in Hb by lia. split; [lia | nia].
  - apply Z.leb_gt in E0.
    assert (HP : 0 < 2 ^ (- e)) by (apply Z.pow_pos_nonneg; lia).
    assert (HQ : 0 < 2 ^ (e + 1200)) by (apply Z.pow_pos_nonneg; lia).
    assert (Hs : 2 ^ 1200 = 2 ^ (- e) * 2 ^ (e + 1200)).
    { rewrite <- Z.pow_add_r by lia. f_equal. lia. }
    split; [apply Z.div_pos; lia|].
    apply Z.div_lt_upper_bound; [lia|].
    rewrite Hs in Hb. nia.
Qed.

Lemma floor_mul_int (r : JsNumber.t) (n : Z) :
  JsNumber.isUnit r = true -> 1 <= n < 2 ^ 53 ->
  exists z, 0 <= z < n
            /\ JsNumber.floor (JsNumber.mul r (JsNumber.ofZ n))
               = JsNumber.ofZ z.
Proof.
  intros Hr Hn.
  destruct (ofZ_positive n ltac:(lia)) as (my & ey & Hy & Hey & Hmy).
  rewrite Hy.
  destruct r as [[|]| | |s mr er]; try discriminate.
  - exists 0. split; [lia | reflexivity].
  - apply isUnit_finite in Hr as (-> & Her & Hlt & Hle).
    unfold JsNumber.mul, SFmul. simpl xorb.
    set (U := 2 ^ (- er)) in *. set (V := 2 ^ (- ey)) in *.
    set (P := 2 ^ (er + ey + 1200)).
    assert (HU : 0 < U) by (apply Z.pow_pos_nonneg; lia).
    assert (HV : 0 < V) by (apply Z.pow_pos_nonneg; lia).
    assert (HP : 0 < P) by (apply Z.pow_pos_nonneg; lia).
    assert (HS : 2 ^ 1200 = U * V * P).
    { unfold U, V, P. rewrite <- !Z.pow_add_r by lia. f_equal. lia. }
    assert (HnVP : 0 < n * V * P) by (repeat apply Z.mul_pos_pos; lia).
    destruct (round_product_below (mr * my) (er + ey) n) as [Hz | (m & e & Hx & Hb)].
    + lia.
    + lia.
    + fold P. rewrite HS, Pos2Z.inj_mul, Hmy.
      replace (Zpos mr * (n * V) * P) with (Zpos mr * (n * V * P)) by ring.
      replace (n * (U * V * P)) with (U * (n * V * P)) by ring.
      apply Z.mul_lt_mono_pos_r; assumption.
    + fold P. rewrite HS, Pos2Z.inj_mul, Hmy.
      replace (Zpos mr * (n * V) * P * 2 ^ 53)
        with ((Zpos mr * 2 ^ 53) * (n * V * P)) by ring.
      replace (n * (U * V * P) * (2 ^ 53 - 1))
        with (((2 ^ 53 - 1) * U) * (n * V * P)) by ring.
      apply Z.mul_le_mono_nonneg_r; [lia | assumption].
    + unfold JsNumber.prec, JsNumber.emax. rewrite Hz.
      exists 0. split; [lia | reflexivity].
    + unfold JsNumber.prec, JsNumber.emax. rewrite Hx.
      exists (JsNumber.floorZ false m e).
      split; [now apply floorZ_below | reflexivity].
Qed.

Lemma floor_mul_index (r : JsNumber.t) (n : nat) :
  JsNumber.isUnit r = true -> (0 < n)%nat -> Z.of_nat n < 2 ^ 53 ->
  exists i, (i < n)%nat
            /\ JsNumber.toIndex
                 (JsNumber.floor (JsNumber.mul r (JsNumber.ofZ (Z.of_nat n))))
               = Some i.
Proof.
  intros Hr Hn Hb.
  destruct (floor_mul_int r (Z.of_nat n) Hr ltac:(lia)) as (z & Hz & ->).
  exists (Z.to_nat z). split; [lia|].
  apply toIndex_ofZ. lia.
Qed.

End Binary64.

(** ** The random selector *)

Lemma pickRandom_eq {A : Type} (items : list A) (g : Rng) :
  pickRandom items g = (Normal (pickedBy items (draws g (pos g))), skip 1 g).
Proof. reflexivity. Qed.

Lemma pickedBy_In {A : Type} (items : list A) (r : JsNumber.t) (x : A) :
  pickedBy items r = Some x -> In x items.
Proof.
  unfold pickedBy, arrayGet.
  destruct (JsNumber.toIndex _) as [k|]; [|discriminate].
  apply nth_error_In.
Qed.

Lemma pickedBy_unit {A : Type} (items : list A) (r : JsNumber.t) :
  items <> [] -> (Z.of_nat (length items) < 2 ^ 53)%Z ->
  JsNumber.isUnit r = true ->
  exists i x, i < length items /\ nth_error items i = Some x
              /\ pickedBy items r = Some x.
Proof.
  intros Hne Hlen Hr.
  assert (Hpos : 0 < length items)
    by (destruct items; [congruence | simpl; lia]).
  destruct (Binary64.floor_mul_index r (length items) Hr Hpos Hlen)
    as (i & Hi & Hidx).
  destruct (nth_error items i) as [x|] eqn:Hx.
  - exists i, x. split; [exact Hi|]. split; [exact Hx|].
    unfold pickedBy, arrayGet. now rewrite Hidx.
  - apply nth_error_None in Hx. lia.
Qed.

Lemma pickedBy_nil {A : Type} (r : JsNumber.t) : pickedBy (@nil A) r = None.
Proof.
  unfold pickedBy, arrayGet.
  destruct (JsNumber.toIndex _) as [[|k]|]; reflexivity.
Qed.

(** X1: applied to an empty array, [pickRandom] throws nothing: whatever
    the generator yields, it returns [undefined] and uses up one draw. *)
Theorem pickRandom_empty_is_undefined :
  forall (A : Type) (g : Rng),
    pickRandom (@nil A) g = (Normal None, skip 1 g)
    /\ ~ throws (fst (pickRandom (@nil A) g)).
Proof.
  intros A g.
  assert (H : pickRandom (@nil A) g = (Normal None, skip 1 g)).
  { now rewrite pickRandom_eq, pickedBy_nil. }
  split; [exact H|].
  rewrite H. intros [m Hm]. discriminate.
Qed.

(** X2: applied to a non-empty array (of fewer than 2^53 elements) when
    [Math.random()] yields a Number of [0, 1), [pickRandom] returns an
    element of the array, read at an index below its length, and uses up
    one draw. *)
Theorem pickRandom_returns_member :
  forall (A : Type) (items : list A) (g : Rng),
    items <> [] -> (Z.of_nat (length items) < 2 ^ 53)%Z ->
    JsNumber.isUnit (draws g (pos g)) = true ->
    exists i x,
      i < length items /\ nth_error items i = Some x /\ In x items
      /\ pickRandom items g = (Normal (Some x), skip 1 g).
Proof.
  intros A items g Hne Hlen Hr.
  destruct (pickedBy_unit items (draws g (pos g)) Hne Hlen Hr)
    as (i & x & Hi & Hx & Hp).
  exists i, x. repeat split; try assumption.
  - eapply nth_error_In; eassumption.
  - now rewrite pickRandom_eq, Hp.
Qed.

Lemma pickRandom_returns_member_witness :
  exists i x,
    i < length sampleChoices /\ nth_error sampleChoices i = Some x
    /\ In x sampleChoices
    /\ pickRandom sampleChoices (constantTape JsNumber.lit_0_5)
       = (Normal (Some x), skip 1 (constantTape JsNumber.lit_0_5)).
Proof.
  apply (pickRandom_returns_member jsstring sampleChoices
           (constantTape JsNumber.lit_0_5)).
  - discriminate.
  - reflexivity.
  - reflexivity.
Defined.

(** C5, as the specification words it, fails: applied to an empty list of
    exercises [pickRandom] raises no error; it returns [undefined]. *)
Lemma pickRandom_empty_raises_no_error :
  fst (pickRandom (@nil Exercise) (constantTape JsNumber.lit_0_5))
  = Normal None
  /\ ~ throws (fst (pickRandom (@nil Exercise)
                      (constantTape JsNumber.lit_0_5))).
Proof.
  split; [reflexivity|]. intros [m Hm]. discriminate Hm.
Qed.

(** C5 (amended): applied to an empty list of exercises [pickRandom]
    raises no error and returns [undefined]; the failure surfaces only
    afterwards, as the [TypeError] of the first render of the card, which
    reads a property of that [undefined]. *)
Theorem pickRandom_empty_fails_at_first_render :
  forall g : Rng,
    fst (pickRandom (@nil Exercise) g) = Normal None
    /\ ~ throws (fst (pickRandom (@nil Exercise) g))
    /\ mount [] g = Throw "TypeError".
Proof.
  intros g.
  assert (H : pickRandom (@nil Exercise) g = (Normal None, skip 1 g))
    by now rewrite pickRandom_eq, pickedBy_nil.
  split; [now rewrite H|]. split.
  - rewrite H. intros [m Hm]. discriminate Hm.
  - unfold mount. now rewrite H.
Qed.

(** C10: for every non-empty list (of fewer than 2^53 elements) and every
    Number of [0, 1) that [Math.random()] yields, the index
    [Math.floor(Math.random() * items.length)] is an array index below
    the length, and [pickRandom] returns the element of the list at that
    index, never [undefined]. *)
Theorem pickRandom_index_in_bounds :
  forall (A : Type) (items : list A) (g : Rng),
    items <> [] -> (Z.of_nat (length items) < 2 ^ 53)%Z ->
    JsNumber.isUnit (draws g (pos g)) = true ->
    let idx := JsNumber.floor
                 (JsNumber.mul (draws g (pos g))
                    (JsNumber.ofZ (Z.of_nat (length items)))) in
    exists (i : nat) (x : A),
      JsNumber.toIndex idx = Some i
      /\ i < length items
      /\ nth_error items i = Some x
      /\ fst (pickRandom items g) = Normal (Some x)
      /\ In x items.
Proof.
  intros A items g Hne Hlen Hr idx.
  assert (Hpos : 0 < length items)
    by (destruct items; [congruence | simpl; lia]).
  destruct (Binary64.floor_mul_index (draws g (pos g)) (length items)
              Hr Hpos Hlen) as (i & Hi & Hidx).
  destruct (nth_error items i) as [x|] eqn:Hx;
    [|apply nth_error_None in Hx; lia].
  exists i, x. split; [exact Hidx|]. split; [exact Hi|].
  split; [exact Hx|]. split.
  - rewrite pickRandom_eq. unfold pickedBy, arrayGet. cbn [fst].
    fold idx. unfold idx. now rewrite Hidx, Hx.
  - eapply nth_error_In; eassumption.
Qed.

Lemma pickRandom_index_in_bounds_witness :
  let g := constantTape JsNumber.lit_0_5 in
  let idx := JsNumber.floor
               (JsNumber.mul (draws g (pos g))
                  (JsNumber.ofZ (Z.of_nat (length sampleChoices)))) in
  exists (i : nat) (x : jsstring),
    JsNumber.toIndex idx = Some i
    /\ i < length sampleChoices
    /\ nth_error sampleChoices i = Some x
    /\ fst (pickRandom sampleChoices g) = Normal (Some x)
    /\ In x sampleChoices.
Proof.
  intros g.
  apply (pickRandom_index_in_bounds jsstring sampleChoices g).
  - discriminate.
  - reflexivity.
  - reflexivity.
Defined.

(** ** [nextRandom] *)

Lemma skip_skip (j k : nat) (g : Rng) : skip j (skip k g) = skip (j + k) g.
Proof. unfold skip. simpl. f_equal. lia. Qed.

Lemma retry_result (fuel : nat) (pool : list Exercise) (current : Exercise) :
  forall (next : option Exercise) (g : Rng) (e : Exercise) (g' : Rng),
    retryWhileSame fuel pool current next g = (Normal e, g') ->
    id e <> id current /\ (next = Some e \/ In e pool).
Proof.
  induction fuel as [|fuel IH]; intros next g e g' H; cbn [retryWhileSame] in H.
  - destruct next as [n|]; [|discriminate].
    destruct (id n =? id current)%N eqn:E; [discriminate|].
    injection H as -> _. apply N.eqb_neq in E. auto.
  - destruct next as [n|]; [|discriminate].
    destruct (id n =? id current)%N eqn:E.
    + rewrite pickRandom_eq in H.
      apply IH in H as [Hid [Hs | Hin]]; split; auto.
      right. eapply pickedBy_In; eassumption.
    + injection H as -> _. apply N.eqb_neq in E. auto.
Qed.

(** With at most one exercise [nextRandom] returns at once. *)
Lemma nextRandom_small_pool_keeps_current :
  forall (fuel : nat) (pool : list Exercise) (current : Exercise) (g : Rng),
    length pool <= 1 ->
    nextRandom fuel pool current g = (Normal current, g).
Proof.
  intros fuel pool current g H. unfold nextRandom.
  destruct (length pool <=? 1) eqn:E; [reflexivity|].
  apply Nat.leb_gt in E. lia.
Qed.

(** Whatever [nextRandom] installs comes from the pool and has another
    id. *)
Lemma nextRandom_differs :
  forall (fuel : nat) (pool : list Exercise) (current next : Exercise)
         (g g' : Rng),
    1 < length pool ->
    nextRandom fuel pool current g = (Normal next, g') ->
    id next <> id current /\ In next pool.
Proof.
  intros fuel pool current next g g' Hlen H. unfold nextRandom in H.
  destruct (length pool <=? 1) eqn:E; [apply Nat.leb_le in E; lia|].
  rewrite pickRandom_eq in H.
  apply retry_result in H as [Hid [Hs | Hin]]; split; auto.
  eapply pickedBy_In; eassumption.
Qed.

Section Retry.

Variable pool : list Exercise.
Variable current : Exercise.
Variable g : Rng.
Hypothesis pool_many : 1 < length pool.
Hypothesis pool_bound : (Z.of_nat (length pool) < 2 ^ 53)%Z.
Hypothesis tape_unit : unitTape g.

Lemma candidate_some (i : nat) :
  exists e, candidate pool g i = Some e /\ In e pool.
Proof.
  unfold candidate.
  destruct (pickedBy_unit pool (draws g (i + pos g))) as (k & e & _ & Hk & He).
  - destruct pool; [simpl in pool_many; lia | discriminate].
  - exact pool_bound.
  - apply tape_unit.
  - exists e. split; [exact He|]. eapply nth_error_In; eassumption.
Qed.

Lemma offersOther_true (i : nat) :
  offersOther pool current g i = true ->
  exists e, candidate pool g i = Some e /\ id e <> id current.
Proof.
  unfold offersOther.
  destruct (candidate pool g i) as [e|]; [|discriminate].
  intros H. exists e. split; [reflexivity|].
  apply negb_true_iff, N.eqb_neq in H. exact H.
Qed.

Lemma offersOther_false (i : nat) :
  offersOther pool current g i = false ->
  exists e, candidate pool g i = Some e /\ id e = id current.
Proof.
  destruct (candidate_some i) as (e & He & _).
  unfold offersOther. fold (candidate pool g i). rewrite He.
  intros H. exists e. split; [reflexivity|].
  apply negb_false_iff, N.eqb_eq in H. exact H.
Qed.

(** The loop, entered with the candidate of draw [i] in hand, leaves
    with the first candidate of another id. *)
Lemma retry_reaches (d : nat) :
  forall (i j fuel : nat) (e : Exercise),
    j = d + i -> d <= fuel ->
    (forall i', i <= i' < j -> offersOther pool current g i' = false) ->
    candidate pool g j = Some e -> id e <> id current ->
    retryWhileSame fuel pool current (candidate pool g i) (skip (S i) g)
    = (Normal e, skip (S j) g).
Proof.
  induction d as [|d IH]; intros i j fuel e Hj Hf Hbefore He Hid.
  - simpl in Hj. subst j. rewrite He.
    apply N.eqb_neq in Hid.
    destruct fuel; cbn [retryWhileSame]; now rewrite Hid.
  - destruct (offersOther_false i) as (n & Hn & Hsame);
      [apply Hbefore; lia|].
    destruct fuel as [|fuel]; [lia|].
    rewrite Hn. cbn [retryWhileSame]. apply N.eqb_eq in Hsame. rewrite Hsame.
    rewrite pickRandom_eq.
    change (pickedBy pool (draws (skip (S i) g) (pos (skip (S i) g))))
      with (candidate pool g (S i)).
    change (skip 1 (skip (S i) g)) with (skip (S (S i)) g).
    apply IH; try assumption; try lia.
    intros i' Hi'. apply Hbefore. lia.
Qed.

Lemma first_offer (k : nat) :
  offersOther pool current g k = true ->
  exists j, j <= k /\ offersOther pool current g j = true
            /\ forall i, i < j -> offersOther pool current g i = false.
Proof.
  induction k as [k IH] using lt_wf_ind. intros Hk.
  destruct (forallb (fun i => negb (offersOther pool current g i)) (seq 0 k))
    eqn:E.
  - exists k. split; [lia|]. split; [exact Hk|].
    intros i Hi. rewrite forallb_forall in E.
    specialize (E i). rewrite in_seq in E.
    apply negb_true_iff. apply E. lia.
  - assert (Hex : exists i, i < k /\ offersOther pool current g i = true).
    { clear IH Hk. induction k as [|k IHk]; [discriminate|].
      rewrite seq_S, forallb_app in E. simpl in E.
      destruct (forallb _ (seq 0 k)) eqn:E'.
      - exists k. split; [lia|]. simpl in E.
        destruct (offersOther pool current g k); [reflexivity | discriminate].
      - destruct (IHk eq_refl) as (i & Hi & Ho). exists i. split; [lia | exact Ho]. }
    destruct Hex as (i & Hi & Ho).
    destruct (IH i Hi Ho) as (j & Hj & Hoj & Hfirst).
    exists j. split; [lia|]. now split.
Qed.

(** Enough fuel: the loop ends at the first draw that offers another
    id, having consumed the draws up to it. *)
Lemma nextRandom_reaches (k : nat) :
  offersOther pool current g k = true ->
  exists j e,
    j <= k
    /\ (forall i, i < j -> offersOther pool current g i = false)
    /\ candidate pool g j = Some e
    /\ id e <> id current /\ In e pool
    /\ forall fuel, j <= fuel ->
         nextRandom fuel pool current g = (Normal e, skip (S j) g).
Proof.
  intros Hk.
  destruct (first_offer k Hk) as (j & Hj & Hoj & Hfirst).
  destruct (offersOther_true j Hoj) as (e & He & Hid).
  exists j, e. split; [exact Hj|]. split; [exact Hfirst|].
  split; [exact He|]. split; [exact Hid|].
  split; [eapply pickedBy_In; exact He|].
  intros fuel Hf. unfold nextRandom.
  destruct (length pool <=? 1) eqn:E; [apply Nat.leb_le in E; lia|].
  rewrite pickRandom_eq.
  change (pickedBy pool (draws g (pos g))) with (candidate pool g 0).
  apply (retry_reaches j 0 j fuel e); try assumption; try lia.
  intros i' Hi'. apply Hfirst. lia.
Qed.

(** No offer at all: the first candidate has the current id and so has
    every later one. *)
Lemma nextRandom_starves (fuel : nat) :
  (forall i, offersOther pool current g i = false) ->
  fst (nextRandom fuel pool current g) = OutOfFuel.
Proof.
  intros Hnone. unfold nextRandom.
  destruct (length pool <=? 1) eqn:E; [apply Nat.leb_le in E; lia|].
  rewrite pickRandom_eq.
  change (pickedBy pool (draws g (pos g))) with (candidate pool g 0).
  destruct (offersOther_false 0 (Hnone 0)) as (n & Hn & Hsame).
  apply N.eqb_eq in Hsame. rewrite Hn.
  clear Hn. revert n Hsame.
  assert (H : forall f i n, (id n =? id current)%N = true ->
            fst (retryWhileSame f pool current (Some n) (skip (S i) g))
            = OutOfFuel).
  { induction f as [|f IH]; intros i n Hsame; cbn [retryWhileSame];
      rewrite Hsame; [reflexivity|].
    rewrite pickRandom_eq.
    change (pickedBy pool (draws (skip (S i) g) (pos (skip (S i) g))))
      with (candidate pool g (S i)).
    change (skip 1 (skip (S i) g)) with (skip (S (S i)) g).
    destruct (offersOther_false (S i) (Hnone (S i))) as (n' & Hn' & Hsame').
    apply N.eqb_eq in Hsame'. rewrite Hn'. now apply IH. }
  intros n Hsame. now apply (H fuel 0 n).
Qed.

End Retry.


(** X3: with more than one exercise in the pool, whenever [nextRandom]
    returns, the exercise it installs is a member of the pool whose id
    differs from the current one. *)
Theorem nextRandom_result_differs :
  forall (fuel : nat) (pool : list Exercise) (current next : Exercise)
         (g g' : Rng),
    1 < length pool ->
    nextRandom fuel pool current g = (Normal next, g') ->
    id next <> id current /\ In next pool.
Proof. exact nextRandom_differs. Qed.

Lemma nextRandom_result_differs_witness :
  id sampleTextExercise <> id sampleChoiceExercise
  /\ In sampleTextExercise [sampleChoiceExercise; sampleTextExercise].
Proof.
  apply (nextRandom_result_differs 0
           [sampleChoiceExercise; sampleTextExercise]
           sampleChoiceExercise sampleTextExercise
           (constantTape JsNumber.lit_0_5)
           (skip 1 (constantTape JsNumber.lit_0_5))).
  - simpl. lia.
  - reflexivity.
Defined.

(** X4: on a tape of Numbers of [0, 1), with a pool of more than one (and
    fewer than 2^53) exercises, if some coming draw selects an exercise
    of another id, then [nextRandom] ends: it installs the exercise of
    the first such draw [j], having made [j + 1] draws, for every fuel
    of at least [j]. *)
Theorem nextRandom_ends_at_first_other_id :
  forall (pool : list Exercise) (current : Exercise) (g : Rng) (k : nat),
    1 < length pool -> (Z.of_nat (length pool) < 2 ^ 53)%Z ->
    unitTape g ->
    offersOther pool current g k = true ->
    exists j e,
      j <= k
      /\ (forall i, i < j -> offersOther pool current g i = false)
      /\ candidate pool g j = Some e
      /\ id e <> id current /\ In e pool
      /\ forall fuel, j <= fuel ->
           nextRandom fuel pool current g = (Normal e, skip (S j) g).
Proof.
  intros pool current g k Hmany Hbound Hunit Hk.
  eapply nextRandom_reaches; eassumption.
Qed.

Lemma nextRandom_ends_at_first_other_id_witness :
  exists j e,
    j <= 0
    /\ (forall i, i < j ->
        offersOther [sampleChoiceExercise; sampleTextExercise]
          sampleChoiceExercise (constantTape JsNumber.lit_0_5) i = false)
    /\ candidate [sampleChoiceExercise; sampleTextExercise]
         (constantTape JsNumber.lit_0_5) j = Some e
    /\ id e <> id sampleChoiceExercise
    /\ In e [sampleChoiceExercise; sampleTextExercise]
    /\ forall fuel, j <= fuel ->
         nextRandom fuel [sampleChoiceExercise; sampleTextExercise]
           sampleChoiceExercise (constantTape JsNumber.lit_0_5)
         = (Normal e, skip (S j) (constantTape JsNumber.lit_0_5)).
Proof.
  apply (nextRandom_ends_at_first_other_id
           [sampleChoiceExercise; sampleTextExercise]
           sampleChoiceExercise (constantTape JsNumber.lit_0_5) 0).
  - simpl. lia.
  - reflexivity.
  - intros k. reflexivity.
  - reflexivity.
Defined.

(** X5: if every exercise of a pool of more than one carries the id of
    the current exercise, the [while] loop of [nextRandom] never ends:
    it exhausts every fuel. *)
Theorem nextRandom_loops_when_all_ids_equal :
  forall (pool : list Exercise) (current : Exercise) (g : Rng),
    1 < length pool -> (Z.of_nat (length pool) < 2 ^ 53)%Z ->
    unitTape g ->
    (forall e, In e pool -> id e = id current) ->
    forall fuel, fst (nextRandom fuel pool current g) = OutOfFuel.
Proof.
  intros pool current g Hmany Hbound Hunit Hall fuel.
  eapply nextRandom_starves; try eassumption.
  intros i.
  destruct (candidate_some pool g Hmany Hbound Hunit i) as (e & He & Hin).
  unfold offersOther. rewrite He.
  apply negb_false_iff, N.eqb_eq. now apply Hall.
Qed.

Lemma nextRandom_loops_when_all_ids_equal_witness :
  fst (nextRandom 1000 [sampleTextExercise; sampleTextExercise]
         sampleTextExercise (constantTape JsNumber.lit_0_5))
  = OutOfFuel.
Proof.
  apply (nextRandom_loops_when_all_ids_equal
           [sampleTextExercise; sampleTextExercise] sampleTextExercise
           (constantTape JsNumber.lit_0_5)).
  - simpl. lia.
  - reflexivity.
  - intros k. reflexivity.
  - intros e [<- | [<- | []]]; reflexivity.
Defined.

(** ** Events, the exercise shown and the card state *)

Lemma runNextCalls_small_pool (fuel calls : nat) (pool : list Exercise)
    (current : Exercise) (g : Rng) :
  length pool <= 1 ->
  runNextCalls fuel calls pool current current g = (Normal current, g).
Proof.
  intros H. induction calls as [|calls IH]; [reflexivity|].
  cbn [runNextCalls].
  now rewrite nextRandom_small_pool_keeps_current.
Qed.

Lemma runNextCalls_many (fuel calls : nat) (pool : list Exercise)
    (current : Exercise) :
  1 < length pool ->
  forall (shown next : Exercise) (g g' : Rng),
    runNextCalls fuel calls pool current shown g = (Normal next, g') ->
    next = shown /\ calls = 0
    \/ id next <> id current /\ In next pool /\ 0 < calls.
Proof.
  intros Hmany. induction calls as [|calls IH]; intros shown next g g' H;
    cbn [runNextCalls] in H.
  - injection H as -> _. now left.
  - right.
    destruct (nextRandom fuel pool current g) as [[n1 | m |] g1] eqn:E;
      try discriminate.
    apply nextRandom_differs in E as [Hid Hin]; [|exact Hmany].
    apply IH in H as [[-> _] | (Hid' & Hin' & _)];
      repeat split; auto; lia.
Qed.

Lemma handleEnter_effect (exercise : Exercise) (s : CardState) (b : Batch) :
  state b = s ->
  editsValueOnly s (state (handleEnter exercise s b))
  /\ value (state (handleEnter exercise s b)) = value s
  \/ recordsVerdict exercise s (state (handleEnter exercise s b))
     /\ nextCalls (handleEnter exercise s b) = nextCalls b.
Proof.
  intros Hb. unfold handleEnter.
  destruct (checked s); simpl.
  - left. rewrite Hb. repeat split.
  - destruct (JsString.truthy (JsString.trim (value s))) eqn:Hv.
    + right. destruct (handleCheck_state exercise s b) as [Hs Hn].
      rewrite Hs, Hb. repeat split; auto.
    + left. rewrite Hb. repeat split.
Qed.

Lemma setValueAt_effect (cs : list jsstring) (i : Z) (b : Batch) :
  checked (state (setValueAt cs i b)) = checked (state b)
  /\ isCorrect (state (setValueAt cs i b)) = isCorrect (state b)
  /\ nextCalls (setValueAt cs i b) = nextCalls b
  /\ (value (state (setValueAt cs i b)) = value (state b)
      \/ In (value (state (setValueAt cs i b))) cs).
Proof.
  unfold setValueAt.
  destruct (nth_error cs (Z.to_nat i)) as [c|] eqn:E; simpl.
  - repeat split. right. eapply nth_error_In; eassumption.
  - repeat split. now left.
Qed.

Lemma handleKeyDown_other_key (exercise : Exercise) (s : CardState)
    (key : jsstring) (b : Batch) :
  JsString.eqb key key_Enter = false ->
  let b' := handleKeyDown exercise s key b in
  checked (state b') = checked (state b)
  /\ isCorrect (state b') = isCorrect (state b)
  /\ nextCalls b' = nextCalls b
  /\ (value (state b') = value (state b)
      \/ exists cs, choices exercise = Some cs /\ In (value (state b')) cs)
  /\ (hasChoices exercise = false -> b' = b).
Proof.
  intros Hk b'. subst b'. unfold handleKeyDown. rewrite Hk.
  destruct (hasChoices exercise) eqn:Hc; [|repeat split; auto].
  unfold hasChoices in Hc.
  destruct (choices exercise) as [cs|] eqn:Ecs; [|discriminate].
  assert (Hset : forall i b0,
            checked (state b0) = checked (state b) ->
            isCorrect (state b0) = isCorrect (state b) ->
            nextCalls b0 = nextCalls b ->
            value (state b0) = value (state b) ->
            checked (state (setValueAt cs i b0)) = checked (state b)
            /\ isCorrect (state (setValueAt cs i b0)) = isCorrect (state b)
            /\ nextCalls (setValueAt cs i b0) = nextCalls b
            /\ (value (state (setValueAt cs i b0)) = value (state b)
                \/ exists cs0, Some cs = Some cs0
                               /\ In (value (state (setValueAt cs i b0))) cs0)
            /\ (true = false -> setValueAt cs i b0 = b)).
  { intros i b0 H1 H2 H3 H4.
    destruct (setValueAt_effect cs i b0) as (A & B & C & D).
    rewrite A, B, C. repeat split; auto; try discriminate.
    destruct D as [D | D]; [left; congruence | right; eauto]. }
  destruct (match keyNumber key with
            | Some k => ((1 <=? k) && (k <=? N.of_nat (length cs)))%N
            | None => false
            end).
  - apply Hset; reflexivity.
  - destruct (JsString.eqb key key_ArrowDown || JsString.eqb key key_ArrowUp).
    + cbv zeta.
      destruct (Z.of_nat (length cs) =? 0)%Z.
      * repeat split; auto; discriminate.
      * apply Hset; reflexivity.
    + repeat split; auto; discriminate.
Qed.

Lemma handleEvent_effect (exercise : Exercise) (s : CardState) (ev : Event) :
  let b := handleEvent exercise s ev in
  (editsValueOnly s (state b) \/ recordsVerdict exercise s (state b))
  /\ (0 < nextCalls b -> state b = s).
Proof.
  intros b. subst b. unfold editsValueOnly, recordsVerdict.
  destruct ev as [key | key | text | i | | ];
    unfold handleEvent.
  - (* a key on the container *)
    destruct (JsString.eqb key key_Enter) eqn:Hk.
    + unfold handleKeyDown. rewrite Hk. unfold handleEnter.
      destruct (checked s) eqn:Hc; simpl.
      * split; [left; split; auto | auto].
      * destruct (JsString.truthy (JsString.trim (value s))) eqn:Hv.
        -- destruct (handleCheck_state exercise s
                       (emit PreventDefault (begin s))) as [Hs Hn].
           rewrite Hs, Hn. split; [right; repeat split; auto | simpl; lia].
        -- split; [left; split; auto | simpl; lia].
    + destruct (handleKeyDown_other_key exercise s key (begin s) Hk)
        as (A & B & C & _ & _).
      split; [left; split; assumption | rewrite C; simpl; lia].
  - (* a key in the text input *)
    destruct (hasChoices exercise) eqn:Hch.
    + split; [left; split; reflexivity | simpl; lia].
    + destruct (JsString.eqb key key_Enter) eqn:Hk.
      * unfold handleKeyDown. rewrite Hk. unfold handleEnter.
        destruct (checked s) eqn:Hc; simpl.
        -- split; [left; split; auto | auto].
        -- destruct (JsString.truthy (JsString.trim (value s))) eqn:Hv.
           ++ unfold handleCheck.
              destruct (checkAnswer (value s) (answer exercise)); simpl;
                (split; [right; repeat split; auto | lia]).
           ++ split; [left; split; auto | simpl; lia].
      * destruct (handleKeyDown_other_key exercise s key (begin s) Hk)
          as (A & B & C & _ & _).
        split; [left; split; assumption | rewrite C; simpl; lia].
  - destruct (hasChoices exercise);
      (split; [left; split; reflexivity | simpl; lia]).
  - destruct (hasChoices exercise);
      [destruct (choices exercise) as [cs|];
       [destruct (nth_error cs i)|]|];
      (split; [left; split; reflexivity | simpl; lia]).
  - unfold checkDisabled.
    destruct (JsString.truthy (JsString.trim (value s))) eqn:Hv; simpl.
    + destruct (handleCheck_state exercise s (begin s)) as [Hs Hn].
      rewrite Hs, Hn. split; [right; repeat split; auto | simpl; lia].
    + split; [left; split; reflexivity | simpl; lia].
  - split; [left; split; reflexivity | reflexivity].
Qed.

Lemma depsChanged_other_id (old new : Exercise) :
  id new <> id old -> depsChanged old new = true.
Proof.
  intros H. unfold depsChanged, effectDeps. simpl fst.
  destruct (id old =? id new)%N eqn:E; [|reflexivity].
  apply N.eqb_eq in E. congruence.
Qed.

(** After an event the exercise is the same and the card is what the
    handlers left, or the exercise has another id and the card is reset. *)
Lemma step_cases :
  forall (fuel : nat) (a a' : AppState) (ev : Event),
    step fuel a ev = Normal a' ->
    exercises a' = exercises a
    /\ (current a' = current a
        /\ card a' = state (handleEvent (current a) (card a) ev)
        \/ id (current a') <> id (current a)
           /\ In (current a') (exercises a)
           /\ card a' = resetState).
Proof.
  intros fuel a a' ev H. unfold step, commit in H.
  set (b := handleEvent (current a) (card a) ev) in *.
  destruct (runNextCalls fuel (nextCalls b) (exercises a) (current a)
              (current a) (afterFeedback (signals b) (rng a)))
    as [[next | m |] g'] eqn:E;
    try discriminate.
  injection H as <-. simpl. split; [reflexivity|].
  destruct (Nat.le_gt_cases (length (exercises a)) 1) as [Hsmall | Hmany].
  - rewrite runNextCalls_small_pool in E by exact Hsmall.
    injection E as <- _. left. now rewrite depsChanged_same.
  - apply runNextCalls_many in E as [[-> _] | (Hid & Hin & _)];
      [| | exact Hmany].
    + left. now rewrite depsChanged_same.
    + right. now rewrite depsChanged_other_id.
Qed.

(** X9: every event leaves the pool as it is, and leaves either the same
    exercise with the card state its handlers produced, or an exercise of
    another id, taken from the pool, with the card reset: no verdict or
    value survives a change of exercise. *)
Theorem step_keeps_exercise_or_resets :
  forall (fuel : nat) (a a' : AppState) (ev : Event),
    step fuel a ev = Normal a' ->
    exercises a' = exercises a
    /\ (current a' = current a
        /\ card a' = state (handleEvent (current a) (card a) ev)
        \/ id (current a') <> id (current a)
           /\ In (current a') (exercises a)
           /\ card a' = resetState).
Proof. exact step_cases. Qed.

Lemma step_keeps_exercise_or_resets_witness :
  exercises sampleNextApp = exercises sampleTwoApp
  /\ (current sampleNextApp = current sampleTwoApp
      /\ card sampleNextApp
         = state (handleEvent (current sampleTwoApp) (card sampleTwoApp)
                    advance)
      \/ id (current sampleNextApp) <> id (current sampleTwoApp)
         /\ In (current sampleNextApp) (exercises sampleTwoApp)
         /\ card sampleNextApp = resetState).
Proof.
  apply (step_keeps_exercise_or_resets 0 sampleTwoApp sampleNextApp advance).
  reflexivity.
Defined.

(** Every event keeps the verdict in step with [checked]. *)
Lemma step_verdict (fuel : nat) (a a' : AppState) (ev : Event) :
  verdictMatchesChecked (card a) ->
  step fuel a ev = Normal a' ->
  verdictMatchesChecked (card a').
Proof.
  intros Hinv H.
  apply step_cases in H as [_ [[_ Hc] | (_ & _ & Hc)]];
    rewrite Hc; [|reflexivity].
  destruct (handleEvent_effect (current a) (card a) ev) as [[[A B] | R] _].
  - unfold verdictMatchesChecked in *. now rewrite A, B.
  - destruct R as (_ & A & B & _). unfold verdictMatchesChecked.
    now rewrite A, B.
Qed.

(** X10: the card shows a verdict exactly when it is checked, and every
    event keeps it so. *)
Theorem step_keeps_verdict_with_checked :
  forall (fuel : nat) (a a' : AppState) (ev : Event),
    verdictMatchesChecked (card a) ->
    step fuel a ev = Normal a' ->
    verdictMatchesChecked (card a').
Proof. exact step_verdict. Qed.

Lemma step_keeps_verdict_with_checked_witness :
  verdictMatchesChecked (card sampleCheckedApp).
Proof.
  apply (step_keeps_verdict_with_checked 0 sampleAnsweredApp
           sampleCheckedApp check).
  - reflexivity.
  - reflexivity.
Defined.

(** X11: whatever the event, an unchecked card becomes checked only if
    its value is not blank; the exercise and the value stay, and the
    verdict is the match of that value against the answer. *)
Theorem verdict_needs_nonblank_value :
  forall (fuel : nat) (a a' : AppState) (ev : Event),
    checked (card a) = false ->
    step fuel a ev = Normal a' ->
    checked (card a') = true ->
    JsString.truthy (JsString.trim (value (card a))) = true
    /\ current a' = current a
    /\ value (card a') = value (card a)
    /\ isCorrect (card a')
       = Some (checkAnswer (value (card a)) (answer (current a))).
Proof.
  intros fuel a a' ev Hu H Hc.
  apply step_cases in H as [_ [[Hcur Hcard] | (_ & _ & Hcard)]];
    rewrite Hcard in *; [|discriminate].
  destruct (handleEvent_effect (current a) (card a) ev) as [[[A B] | R] _].
  - congruence.
  - destruct R as (V & _ & B & T). auto.
Qed.

Lemma verdict_needs_nonblank_value_witness :
  JsString.truthy (JsString.trim (value (card sampleAnsweredApp))) = true
  /\ current sampleCheckedApp = current sampleAnsweredApp
  /\ value (card sampleCheckedApp) = value (card sampleAnsweredApp)
  /\ isCorrect (card sampleCheckedApp)
     = Some (checkAnswer (value (card sampleAnsweredApp))
               (answer (current sampleAnsweredApp))).
Proof.
  apply (verdict_needs_nonblank_value 0 sampleAnsweredApp sampleCheckedApp
           check); reflexivity.
Defined.

(** X12: a checked card stays checked for as long as the same exercise
    is shown; it reverts only by the reset that comes with an exercise of
    another id. *)
Theorem checked_until_exercise_changes :
  forall (fuel : nat) (a a' : AppState) (ev : Event),
    checked (card a) = true ->
    step fuel a ev = Normal a' ->
    current a' = current a /\ checked (card a') = true
    \/ id (current a') <> id (current a) /\ card a' = resetState.
Proof.
  intros fuel a a' ev Hc H.
  apply step_cases in H as [_ [[Hcur Hcard] | (Hid & _ & Hcard)]].
  - left. split; [exact Hcur|]. rewrite Hcard.
    destruct (handleEvent_effect (current a) (card a) ev) as [[[A B] | R] _].
    + congruence.
    + now destruct R as (_ & A & _).
  - right. now split.
Qed.

Lemma checked_until_exercise_changes_witness :
  current sampleNextApp = current sampleTwoApp
  /\ checked (card sampleNextApp) = true
  \/ id (current sampleNextApp) <> id (current sampleTwoApp)
     /\ card sampleNextApp = resetState.
Proof.
  apply (checked_until_exercise_changes 0 sampleTwoApp sampleNextApp advance);
    reflexivity.
Defined.

(** ** [advance] *)

Lemma advance_small_pool (fuel : nat) (a : AppState) :
  length (exercises a) <= 1 -> step fuel a advance = Normal a.
Proof.
  intros H. unfold step, commit, advance, handleEvent.
  cbn [nextCalls signals onNext begin afterFeedback].
  rewrite runNextCalls_small_pool by exact H.
  rewrite depsChanged_same. simpl. apply f_equal, app_eta.
Qed.

Lemma advance_result (fuel : nat) (a a' : AppState) :
  1 < length (exercises a) ->
  step fuel a advance = Normal a' ->
  card a' = resetState
  /\ id (current a') <> id (current a)
  /\ In (current a') (exercises a)
  /\ exercises a' = exercises a.
Proof.
  intros Hmany H. unfold step, commit, advance, handleEvent in H.
  cbn [nextCalls signals onNext begin afterFeedback] in H.
  destruct (runNextCalls fuel 1 (exercises a) (current a) (current a) (rng a))
    as [[next | m |] g'] eqn:E; try discriminate.
  injection H as <-. simpl.
  apply runNextCalls_many in E as [[_ E] | (Hid & Hin & _)];
    [discriminate | | exact Hmany].
  rewrite depsChanged_other_id by exact Hid. auto.
Qed.

Lemma advance_reaches (a : AppState) (k : nat) :
  1 < length (exercises a) ->
  (Z.of_nat (length (exercises a)) < 2 ^ 53)%Z ->
  unitTape (rng a) ->
  offersOther (exercises a) (current a) (rng a) k = true ->
  exists j e,
    j <= k /\ candidate (exercises a) (rng a) j = Some e
    /\ id e <> id (current a)
    /\ forall fuel, j <= fuel ->
         step fuel a advance
         = Normal {| exercises := exercises a; current := e;
                     card := resetState; rng := skip (S j) (rng a) |}.
Proof.
  intros Hmany Hbound Hunit Hk.
  destruct (nextRandom_reaches (exercises a) (current a) (rng a)
              Hmany Hbound Hunit k Hk)
    as (j & e & Hj & _ & He & Hid & _ & Hrun).
  exists j, e. split; [exact Hj|]. split; [exact He|]. split; [exact Hid|].
  intros fuel Hf. unfold step, commit, advance, handleEvent.
  cbn [nextCalls signals onNext begin afterFeedback runNextCalls].
  rewrite (Hrun fuel Hf).
  now rewrite depsChanged_other_id.
Qed.

(** X6: with a pool of at most one exercise [advance] changes nothing at
    all: the same exercise stays, the card keeps its value and its
    verdict, and no draw is made. *)
Theorem advance_small_pool_is_noop :
  forall (fuel : nat) (a : AppState),
    length (exercises a) <= 1 -> step fuel a advance = Normal a.
Proof. exact advance_small_pool. Qed.

Lemma advance_small_pool_is_noop_witness :
  step 0 sampleCheckedApp advance = Normal sampleCheckedApp.
Proof.
  apply (advance_small_pool_is_noop 0 sampleCheckedApp). simpl. lia.
Defined.

(** X7: with more than one exercise in the pool, whenever [advance]
    returns, the card is reset (empty value, unchecked, no verdict) and
    the exercise shown is a member of the pool with another id. *)
Theorem advance_resets_card :
  forall (fuel : nat) (a a' : AppState),
    1 < length (exercises a) ->
    step fuel a advance = Normal a' ->
    card a' = resetState
    /\ id (current a') <> id (current a)
    /\ In (current a') (exercises a)
    /\ exercises a' = exercises a.
Proof. exact advance_result. Qed.

Lemma advance_resets_card_witness :
  card sampleNextApp = resetState
  /\ id (current sampleNextApp) <> id (current sampleTwoApp)
  /\ In (current sampleNextApp) (exercises sampleTwoApp)
  /\ exercises sampleNextApp = exercises sampleTwoApp.
Proof.
  apply (advance_resets_card 0 sampleTwoApp sampleNextApp).
  - simpl. lia.
  - reflexivity.
Defined.

(** X8: on a tape of Numbers of [0, 1), with a pool of more than one
    exercise, if some coming draw selects an exercise of another id then
    [advance] ends for every fuel of at least [j], the first such draw:
    it shows that exercise on a reset card and has made [j + 1] draws. *)
Theorem advance_ends_on_fair_tape :
  forall (a : AppState) (k : nat),
    1 < length (exercises a) ->
    (Z.of_nat (length (exercises a)) < 2 ^ 53)%Z ->
    unitTape (rng a) ->
    offersOther (exercises a) (current a) (rng a) k = true ->
    exists j e,
      j <= k /\ candidate (exercises a) (rng a) j = Some e
      /\ id e <> id (current a)
      /\ forall fuel, j <= fuel ->
           step fuel a advance
           = Normal {| exercises := exercises a; current := e;
                       card := resetState; rng := skip (S j) (rng a) |}.
Proof. exact advance_reaches. Qed.

Lemma advance_ends_on_fair_tape_witness :
  exists j e,
    j <= 0 /\ candidate (exercises sampleTwoApp) (rng sampleTwoApp) j = Some e
    /\ id e <> id (current sampleTwoApp)
    /\ forall fuel, j <= fuel ->
         step fuel sampleTwoApp advance
         = Normal {| exercises := exercises sampleTwoApp; current := e;
                     card := resetState;
                     rng := skip (S j) (rng sampleTwoApp) |}.
Proof.
  apply (advance_ends_on_fair_tape sampleTwoApp 0).
  - simpl. lia.
  - reflexivity.
  - intros k. reflexivity.
  - reflexivity.
Defined.





(** C8, as the specification words it, fails: with a pool of one
    exercise [advance] leaves a checked card checked, with its value and
    its verdict. *)
Lemma advance_keeps_card_in_pool_of_one :
  exists a',
    step 0 sampleCheckedApp advance = Normal a'
    /\ checked (card a') = true
    /\ value (card a') = JsString.lit "dom"
    /\ isCorrect (card a') = Some true.
Proof.
  eexists. split; [reflexivity|]. repeat split.
Qed.

(** C8 (amended): whatever the prior interaction state, with a pool of
    more than one member [advance], whenever it returns, leaves the card
    reset: unchecked, with an empty value and no verdict; and it returns
    once the random selector offers an exercise of another identifier.
    With a pool of at most one member [advance] changes nothing, the
    interaction state included. *)
Theorem advance_resets_beyond_one_exercise :
  forall (fuel : nat) (a : AppState),
    (1 < length (exercises a) ->
     (forall a', step fuel a advance = Normal a' ->
                 checked (card a') = false
                 /\ value (card a') = []
                 /\ isCorrect (card a') = None)
     /\ ((Z.of_nat (length (exercises a)) < 2 ^ 53)%Z ->
         unitTape (rng a) ->
         forall k,
           offersOther (exercises a) (current a) (rng a) k = true ->
           k <= fuel ->
           exists a', step fuel a advance = Normal a'
                      /\ card a' = resetState))
    /\ (length (exercises a) <= 1 -> step fuel a advance = Normal a).
Proof.
  intros fuel a. split.
  - intros Hmany. split.
    + intros a' H.
      destruct (advance_result fuel a a' Hmany H) as (Hc & _).
      rewrite Hc. repeat split.
    + intros Hbound Hunit k Hk Hf.
      destruct (advance_reaches a k Hmany Hbound Hunit Hk)
        as (j & e & Hj & _ & _ & Hrun).
      eexists. split; [apply Hrun; lia | reflexivity].
  - apply advance_small_pool.
Qed.

(** ** Keys *)

Lemma digitKey_number (k : nat) :
  k <= 9 ->
  keyNumber (digitKey k) = Some (N.of_nat k)
  /\ JsString.eqb (digitKey k) key_Enter = false.
Proof.
  intros H.
  do 10 (destruct k as [|k]; [split; reflexivity|]). lia.
Qed.

(** X13: in multiple-choice mode the digit key [k] (1 to 9) selects the
    [k]-th choice when there is one, changing the value only and
    preventing the default action; the key [0] and the digits beyond the
    number of choices do nothing. *)
Theorem digit_key_selects_choice :
  forall (exercise : Exercise) (cs : list jsstring) (s : CardState)
         (k : nat),
    choices exercise = Some cs -> k <= 9 ->
    let b := handleEvent exercise s (handleKey (digitKey k)) in
    (1 <= k <= length cs ->
     exists c, nth_error cs (k - 1) = Some c
               /\ b = setValue c (emit PreventDefault (begin s)))
    /\ (k = 0 \/ length cs < k -> b = begin s).
Proof.
  intros exercise cs s k Hcs Hk b. subst b.
  destruct (digitKey_number k Hk) as [Hn He].
  unfold handleKey, handleEvent, handleKeyDown. rewrite He.
  unfold hasChoices. rewrite Hcs, Hn.
  split.
  - intros [H1 H2].
    assert (Hh : negb (length cs =? 0) = true)
      by (apply negb_true_iff, Nat.eqb_neq; lia).
    assert (Hr : ((1 <=? N.of_nat k) && (N.of_nat k <=? N.of_nat (length cs)))%N
                 = true)
      by (apply andb_true_iff; split; apply N.leb_le; lia).
    rewrite Hh, Hr. unfold setValueAt. rewrite nat_N_Z.
    replace (Z.to_nat (Z.of_nat k - 1)) with (k - 1) by lia.
    destruct (nth_error cs (k - 1)) as [c|] eqn:E.
    + exists c. now split.
    + apply nth_error_None in E. lia.
  - intros H.
    destruct (negb (length cs =? 0)); [|reflexivity].
    assert (Hr : ((1 <=? N.of_nat k) && (N.of_nat k <=? N.of_nat (length cs)))%N
                 = false).
    { apply andb_false_iff.
      destruct H as [-> | H]; [left; reflexivity | right].
      apply N.leb_gt. lia. }
    rewrite Hr.
    assert (Ha : JsString.eqb (digitKey k) key_ArrowDown
                 || JsString.eqb (digitKey k) key_ArrowUp = false).
    { clear - Hk. do 10 (destruct k as [|k]; [reflexivity|]). lia. }
    now rewrite Ha.
Qed.

Lemma digit_key_selects_choice_witness :
  let b := handleEvent sampleChoiceExercise resetState
             (handleKey (digitKey 2)) in
  (1 <= 2 <= length sampleChoices ->
   exists c, nth_error sampleChoices (2 - 1) = Some c
             /\ b = setValue c (emit PreventDefault (begin resetState)))
  /\ (2 = 0 \/ length sampleChoices < 2 -> b = begin resetState).
Proof.
  apply (digit_key_selects_choice sampleChoiceExercise sampleChoices
           resetState 2).
  - reflexivity.
  - lia.
Defined.

(** X14: a key identifier (one typed character, or the name of a key)
    other than Enter never checks the card and never asks for the next
    exercise; the only thing it can change is the value, and only to one
    of the choices.  In free-text mode it does nothing. *)
Theorem other_keys_only_select :
  forall (exercise : Exercise) (s : CardState) (key : jsstring),
    isKeyIdentifier key = true ->
    key <> key_Enter ->
    let b := handleEvent exercise s (handleKey key) in
    checked (state b) = checked s
    /\ isCorrect (state b) = isCorrect s
    /\ nextCalls b = 0
    /\ (value (state b) = value s
        \/ exists cs, choices exercise = Some cs /\ In (value (state b)) cs)
    /\ (hasChoices exercise = false -> b = begin s).
Proof.
  intros exercise s key _ Hk b. subst b.
  apply jsstring_eqb_neq in Hk.
  exact (handleKeyDown_other_key exercise s key (begin s) Hk).
Qed.

Lemma other_keys_only_select_witness :
  let s := {| value := JsString.lit "dom"; checked := true;
              isCorrect := Some true |} in
  let b := handleEvent sampleChoiceExercise s (handleKey key_ArrowDown) in
  checked (state b) = checked s
  /\ isCorrect (state b) = isCorrect s
  /\ nextCalls b = 0
  /\ (value (state b) = value s
      \/ exists cs, choices sampleChoiceExercise = Some cs
                    /\ In (value (state b)) cs)
  /\ (hasChoices sampleChoiceExercise = false -> b = begin s).
Proof.
  intros s.
  apply (other_keys_only_select sampleChoiceExercise s key_ArrowDown).
  - reflexivity.
  - discriminate.
Defined.

(** X15: Enter typed in the text input runs [handleEnter] twice, in the
    input's own handler and again in the container's, with the same
    closed-over state: the card ends in the state one run gives, but
    the feedback signals are emitted twice and [onNext] is called
    twice. *)
Theorem input_enter_runs_handler_twice :
  forall (exercise : Exercise) (s : CardState),
    hasChoices exercise = false ->
    let viaInput := handleEvent exercise s (InputKeyDown key_Enter) in
    let viaContainer := handleEvent exercise s (handleKey key_Enter) in
    state viaInput = state viaContainer
    /\ signals viaInput = signals viaContainer ++ signals viaContainer
    /\ nextCalls viaInput = 2 * nextCalls viaContainer.
Proof.
  intros exercise s Hc viaInput viaContainer.
  subst viaInput viaContainer.
  unfold handleKey, handleEvent. rewrite Hc.
  change (JsString.eqb key_Enter key_Enter) with true. cbv iota.
  unfold handleKeyDown.
  change (JsString.eqb key_Enter key_Enter) with true. cbv iota.
  unfold handleEnter.
  destruct (checked s); simpl negb; cbv iota.
  - repeat split.
  - destruct (JsString.truthy (JsString.trim (value s))).
    + unfold handleCheck.
      destruct (checkAnswer (value s) (answer exercise)); repeat split.
    + repeat split.
Qed.

Lemma input_enter_runs_handler_twice_witness :
  let s := {| value := JsString.lit "dom"; checked := false;
              isCorrect := None |} in
  let viaInput := handleEvent sampleTextExercise s (InputKeyDown key_Enter) in
  let viaContainer := handleEvent sampleTextExercise s (handleKey key_Enter) in
  state viaInput = state viaContainer
  /\ signals viaInput = signals viaContainer ++ signals viaContainer
  /\ nextCalls viaInput = 2 * nextCalls viaContainer.
Proof.
  intros s.
  apply (input_enter_runs_handler_twice sampleTextExercise s).
  reflexivity.
Defined.

(** ** The confetti burst *)

Module ConfettiFacts.

Import Confetti.

Lemma newPiece_rng (cv : Canvas) (g : Rng) :
  snd (newPiece cv g) = skip 7 g.
Proof. reflexivity. Qed.

Lemma spawn_spec (n : nat) (cv : Canvas) :
  forall g : Rng,
    length (fst (spawn n cv g)) = n
    /\ snd (spawn n cv g) = skip (7 * n) g
    /\ Forall (fun p => life p = 0%Z
                        /\ x p = JsNumber.div (width cv) (JsNumber.ofZ 2)
                        /\ y p = JsNumber.div (height cv) (JsNumber.ofZ 3))
         (fst (spawn n cv g)).
Proof.
  induction n as [|n IH]; intros g.
  - simpl. repeat split; [|constructor].
    unfold skip. destruct g. reflexivity.
  - cbn [spawn].
    destruct (newPiece cv g) as [p g1] eqn:Ep.
    destruct (spawn n cv g1) as [ps g2] eqn:Es.
    specialize (IH g1). rewrite Es in IH. destruct IH as (Hl & Hg & Hf).
    simpl fst in *. simpl snd in *.
    assert (Hg1 : g1 = skip 7 g) by (rewrite <- newPiece_rng with (cv := cv); now rewrite Ep).
    assert (Hp : p = fst (newPiece cv g)) by now rewrite Ep.
    split; [simpl; lia|]. split.
    + rewrite Hg, Hg1, skip_skip. f_equal. lia.
    + constructor; [|exact Hf]. rewrite Hp. repeat split.
Qed.

Lemma add_90_nat (k : nat) :
  k < 60 ->
  JsNumber.add (JsNumber.ofZ 90) (JsNumber.ofZ (Z.of_nat k))
  = JsNumber.ofZ (90 + Z.of_nat k).
Proof.
  intros H.
  do 60 (destruct k as [|k]; [vm_compute; reflexivity|]). lia.
Qed.

Lemma add_90 (z : Z) :
  (0 <= z < 60)%Z ->
  JsNumber.add (JsNumber.ofZ 90) (JsNumber.ofZ z) = JsNumber.ofZ (90 + z).
Proof.
  intros H. rewrite <- (Z2Nat.id z) by lia. apply add_90_nat. lia.
Qed.

Lemma newPiece_ranges (cv : Canvas) (g : Rng) :
  unitTape g ->
  (exists z, (90 <= z < 150)%Z /\ ttl (fst (newPiece cv g)) = JsNumber.ofZ z)
  /\ (exists z, (0 <= z < 360)%Z
                /\ hue (fst (newPiece cv g)) = JsNumber.ofZ z).
Proof.
  intros Hu. split.
  - destruct (Binary64.floor_mul_int (draws g (5 + pos g)) 60 (Hu _))
      as (z & Hz & E); [split; [lia | reflexivity]|].
    exists (90 + z)%Z. split; [lia|].
    cbn [newPiece Math_random fst ttl draws pos].
    change (S (S (S (S (S (pos g)))))) with (5 + pos g).
    rewrite E. now apply add_90.
  - destruct (Binary64.floor_mul_int (draws g (6 + pos g)) 360 (Hu _))
      as (z & Hz & E); [split; [lia | reflexivity]|].
    exists z. split; [exact Hz|].
    cbn [newPiece Math_random fst hue draws pos].
    change (S (S (S (S (S (S (pos g))))))) with (6 + pos g).
    exact E.
Qed.

Lemma unitTape_skip (k : nat) (g : Rng) : unitTape g -> unitTape (skip k g).
Proof. intros H i. apply H. Qed.

Lemma spawn_ranges (n : nat) (cv : Canvas) :
  forall g : Rng,
    unitTape g ->
    Forall (fun p =>
              (exists z, (90 <= z < 150)%Z /\ ttl p = JsNumber.ofZ z)
              /\ (exists z, (0 <= z < 360)%Z /\ hue p = JsNumber.ofZ z))
      (fst (spawn n cv g)).
Proof.
  induction n as [|n IH]; intros g Hu; [constructor|].
  cbn [spawn].
  destruct (newPiece cv g) as [p g1] eqn:Ep.
  destruct (spawn n cv g1) as [ps g2] eqn:Es.
  simpl fst. constructor.
  - replace p with (fst (newPiece cv g)) by now rewrite Ep.
    now apply newPiece_ranges.
  - replace ps with (fst (spawn n cv g1)) by now rewrite Es.
    apply IH.
    replace g1 with (snd (newPiece cv g)) by now rewrite Ep.
    rewrite newPiece_rng. now apply unitTape_skip.
Qed.

Lemma tickPieces_spec (ps : list Piece) :
  forall cv : Canvas,
    fst (tickPieces ps cv) = map movePiece ps
    /\ width (snd (tickPieces ps cv)) = width cv
    /\ height (snd (tickPieces ps cv)) = height cv
    /\ length (drawn (snd (tickPieces ps cv)))
       <= length (drawn cv) + length ps.
Proof.
  induction ps as [|p ps IH]; intros cv.
  - simpl. repeat split; lia.
  - cbn [tickPieces].
    destruct (tickPieces ps (drawPiece (movePiece p) cv)) as [rest cv'] eqn:E.
    specialize (IH (drawPiece (movePiece p) cv)). rewrite E in IH.
    simpl fst in *. simpl snd in *.
    destruct IH as (Hm & Hw & Hh & Hd).
    assert (Hdraw : width (drawPiece (movePiece p) cv) = width cv
                    /\ height (drawPiece (movePiece p) cv) = height cv
                    /\ length (drawn (drawPiece (movePiece p) cv))
                       <= length (drawn cv) + 1).
    { unfold drawPiece.
      destruct (JsNumber.leb _ _); simpl; [|rewrite length_app; simpl];
        repeat split; lia. }
    destruct Hdraw as (Hw' & Hh' & Hd').
    split; [simpl; now rewrite Hm|].
    split; [congruence|]. split; [congruence|]. simpl length. lia.
Qed.

Lemma tick_spec (s : Sim) :
  frame (tick s) = (frame s + 1)%Z
  /\ scheduled (tick s) = (frame s + 1 <? 140)%Z
  /\ pieces (tick s) = map movePiece (pieces s)
  /\ length (drawn (canvas (tick s))) <= length (pieces s)
  /\ ((140 <= frame s + 1)%Z -> drawn (canvas (tick s)) = []).
Proof.
  unfold tick.
  destruct (tickPieces (pieces s) (clearRect (canvas s))) as [ps cv] eqn:E.
  destruct (tickPieces_spec (pieces s) (clearRect (canvas s)))
    as (Hm & _ & _ & Hd).
  rewrite E in Hm, Hd. simpl in Hm, Hd.
  destruct (frame s + 1 <? 140)%Z eqn:Hf; simpl.
  - apply Z.ltb_lt in Hf. repeat split; auto. lia.
  - repeat split; auto. lia.
Qed.

Lemma run_spec (n : nat) :
  forall s : Sim,
    scheduled s = true -> (0 <= frame s < 140)%Z ->
    let s' := run n s in
    frame s' = Z.min (frame s + Z.of_nat n) 140
    /\ scheduled s' = (frame s + Z.of_nat n <? 140)%Z
    /\ length (pieces s') = length (pieces s)
    /\ map ttl (pieces s') = map ttl (pieces s)
    /\ map life (pieces s')
       = map (fun p => (life p + (frame s' - frame s))%Z) (pieces s)
    /\ ((140 <= frame s + Z.of_nat n)%Z -> drawn (canvas s') = []).
Proof.
  induction n as [|n IH]; intros s Hs Hf s'; subst s'.
  - simpl. replace (frame s + 0)%Z with (frame s) by lia.
    rewrite Z.min_l by lia.
    replace (frame s <? 140)%Z with true by (symmetry; apply Z.ltb_lt; lia).
    repeat split; auto; try lia.
    rewrite <- (map_id (map life (pieces s))) at 1. rewrite map_map.
    apply map_ext. intros p. lia.
  - cbn [run]. unfold frameStep. rewrite Hs.
    remember {| canvas := canvas s; pieces := pieces s; frame := frame s;
                scheduled := false |} as s0 eqn:Es0.
    destruct (tick_spec s0) as (Tf & Ts & Tp & _ & Tc).
    assert (Ef : frame s0 = frame s) by (subst s0; reflexivity).
    assert (Ep : pieces s0 = pieces s) by (subst s0; reflexivity).
    rewrite Ef in Tf, Ts, Tc. rewrite Ep in Tp. clear Es0 Ef Ep.
    destruct (Z.eq_dec (frame s + 1) 140) as [Hend | Hmore].
    + (* the last tick *)
      assert (Hstop : forall k, run k (tick s0) = tick s0).
      { induction k as [|k IHk]; [reflexivity|]. cbn [run].
        unfold frameStep. rewrite Ts.
        replace (frame s + 1 <? 140)%Z with false
          by (symmetry; apply Z.ltb_ge; lia).
        exact IHk. }
      rewrite Hstop, Tf, Ts, Tp.
      rewrite Z.min_r by lia.
      replace (frame s + 1 <? 140)%Z with false
        by (symmetry; apply Z.ltb_ge; lia).
      replace (frame s + Z.of_nat (S n) <? 140)%Z with false
        by (symmetry; apply Z.ltb_ge; lia).
      rewrite length_map, !map_map. simpl.
      repeat split; auto; try lia.
      * apply map_ext. intros p. lia.
      * intros _. apply Tc. lia.
    + destruct (IH (tick s0)) as (A & B & C & D & E & F).
      * rewrite Ts. apply Z.ltb_lt. lia.
      * rewrite Tf. lia.
      * rewrite Tf in A, B, E, F. rewrite Tp in C, D, E.
        rewrite length_map in C. rewrite !map_map in D, E. simpl in D, E.
        replace (frame s + 1 + Z.of_nat n)%Z
          with (frame s + Z.of_nat (S n))%Z in * by lia.
        repeat split; auto.
        rewrite E. apply map_ext. intros p. lia.
Qed.

Lemma shootConfetti_shape (dom : Dom) (g g' : Rng) (sim : Sim) :
  shootConfetti dom g = (Some sim, g') ->
  exists cv,
    sim = {| canvas := cv; pieces := fst (spawn 120 cv g); frame := 0;
             scheduled := true |}
    /\ drawn cv = []
    /\ g' = snd (spawn 120 cv g).
Proof.
  unfold shootConfetti. intros H.
  destruct (canvasRef dom) as [cv0|]; [|discriminate].
  destruct (cardRect dom) as [[w h]|]; [|discriminate].
  destruct (context2d dom); [|discriminate].
  exists {| width := JsNumber.floor w; height := JsNumber.floor h;
            drawn := [] |}.
  destruct (spawn 120 _ g) as [ps g1].
  injection H as <- <-. split; [reflexivity|]. split; reflexivity.
Qed.

(** The draws [commit] takes for a [ShootConfetti] signal are those of
    [shootConfetti] on a mounted card. *)
Lemma afterFeedback_shootConfetti (dom : Dom) (g : Rng) (cv : Canvas)
    (w h : JsNumber.t) :
  canvasRef dom = Some cv -> cardRect dom = Some (w, h) ->
  context2d dom = true ->
  snd (shootConfetti dom g) = afterFeedback [ShootConfetti] g.
Proof.
  intros Hc Hr Hx. unfold shootConfetti. rewrite Hc, Hr, Hx.
  set (cv' := {| width := JsNumber.floor w; height := JsNumber.floor h;
                 drawn := [] |}).
  destruct (spawn_spec 120 cv' g) as (_ & Hg & _).
  destruct (spawn 120 cv' g) as [ps g'].
  cbn [snd] in *. rewrite Hg. reflexivity.
Qed.

End ConfettiFacts.

(** X16: with both refs attached and a 2d context at hand,
    [shootConfetti] sizes the canvas to the floored card box, leaves it
    blank, spawns exactly 120 pieces of age 0 at half the width and a
    third of the height, schedules the first frame, and makes exactly
    840 draws (seven per piece). *)
Theorem shootConfetti_spawns_burst :
  forall (dom : Confetti.Dom) (g : Rng) (cv : Confetti.Canvas)
         (w h : JsNumber.t),
    Confetti.canvasRef dom = Some cv ->
    Confetti.cardRect dom = Some (w, h) ->
    Confetti.context2d dom = true ->
    exists sim,
      Confetti.shootConfetti dom g = (Some sim, skip 840 g)
      /\ length (Confetti.pieces sim) = 120
      /\ Confetti.frame sim = 0%Z
      /\ Confetti.scheduled sim = true
      /\ Confetti.canvas sim
         = {| Confetti.width := JsNumber.floor w;
              Confetti.height := JsNumber.floor h;
              Confetti.drawn := [] |}
      /\ Forall (fun p =>
                   Confetti.life p = 0%Z
                   /\ Confetti.x p
                      = JsNumber.div (JsNumber.floor w) (JsNumber.ofZ 2)
                   /\ Confetti.y p
                      = JsNumber.div (JsNumber.floor h) (JsNumber.ofZ 3))
           (Confetti.pieces sim).
Proof.
  intros dom g cv w h Hc Hr Hx. unfold Confetti.shootConfetti.
  rewrite Hc, Hr, Hx.
  set (cv' := {| Confetti.width := JsNumber.floor w;
                 Confetti.height := JsNumber.floor h;
                 Confetti.drawn := [] |}).
  destruct (ConfettiFacts.spawn_spec 120 cv' g) as (Hl & Hg & Hf).
  destruct (Confetti.spawn 120 cv' g) as [ps g'].
  simpl fst in *. simpl snd in *. subst g'.
  eexists. split; [reflexivity|]. simpl. auto.
Qed.

Lemma shootConfetti_spawns_burst_witness :
  exists sim,
    Confetti.shootConfetti sampleDom (constantTape JsNumber.lit_0_5)
    = (Some sim, skip 840 (constantTape JsNumber.lit_0_5))
    /\ length (Confetti.pieces sim) = 120
    /\ Confetti.frame sim = 0%Z
    /\ Confetti.scheduled sim = true
    /\ Confetti.canvas sim
       = {| Confetti.width := JsNumber.floor (JsNumber.ofZ 700);
            Confetti.height := JsNumber.floor (JsNumber.ofZ 400);
            Confetti.drawn := [] |}
    /\ Forall (fun p =>
                 Confetti.life p = 0%Z
                 /\ Confetti.x p
                    = JsNumber.div (JsNumber.floor (JsNumber.ofZ 700))
                        (JsNumber.ofZ 2)
                 /\ Confetti.y p
                    = JsNumber.div (JsNumber.floor (JsNumber.ofZ 400))
                        (JsNumber.ofZ 3))
         (Confetti.pieces sim).
Proof.
  apply (shootConfetti_spawns_burst sampleDom
           (constantTape JsNumber.lit_0_5)
           {| Confetti.width := JsNumber.ofZ 300;
              Confetti.height := JsNumber.ofZ 150;
              Confetti.drawn := [] |}
           (JsNumber.ofZ 700) (JsNumber.ofZ 400)); reflexivity.
Defined.

(** X17: when [Math.random()] yields Numbers of [0, 1), every piece of a
    burst has an integral time-to-live from 90 to 149 and an integral
    hue from 0 to 359. *)
Theorem confetti_ttl_and_hue_ranges :
  forall (dom : Confetti.Dom) (g g' : Rng) (sim : Confetti.Sim),
    unitTape g ->
    Confetti.shootConfetti dom g = (Some sim, g') ->
    Forall (fun p =>
              (exists z, (90 <= z < 150)%Z
                         /\ Confetti.ttl p = JsNumber.ofZ z)
              /\ (exists z, (0 <= z < 360)%Z
                            /\ Confetti.hue p = JsNumber.ofZ z))
      (Confetti.pieces sim).
Proof.
  intros dom g g' sim Hu H.
  destruct (ConfettiFacts.shootConfetti_shape dom g g' sim H) as (cv & -> & _ & _).
  exact (ConfettiFacts.spawn_ranges 120 cv g Hu).
Qed.

Lemma confetti_ttl_and_hue_ranges_witness :
  Forall (fun p =>
            (exists z, (90 <= z < 150)%Z
                       /\ Confetti.ttl p = JsNumber.ofZ z)
            /\ (exists z, (0 <= z < 360)%Z
                          /\ Confetti.hue p = JsNumber.ofZ z))
    (Confetti.pieces sampleSim).
Proof.
  apply (confetti_ttl_and_hue_ranges sampleDom
           (constantTape JsNumber.lit_0_5)
           (skip 840 (constantTape JsNumber.lit_0_5)) sampleSim).
  - intros k. reflexivity.
  - vm_compute. reflexivity.
Defined.

(** X18: a burst runs for exactly 140 frames.  After [n] display frames
    the frame counter and the age of every piece are [min n 140], a
    further frame is scheduled exactly when [n < 140], the 120 pieces and
    their times-to-live are as spawned, and from frame 140 on the canvas
    is blank. *)
Theorem confetti_runs_140_frames :
  forall (dom : Confetti.Dom) (g g' : Rng) (sim : Confetti.Sim) (n : nat),
    Confetti.shootConfetti dom g = (Some sim, g') ->
    let s := Confetti.run n sim in
    Confetti.frame s = Z.min (Z.of_nat n) 140
    /\ Confetti.scheduled s = (Z.of_nat n <? 140)%Z
    /\ length (Confetti.pieces s) = 120
    /\ map Confetti.ttl (Confetti.pieces s)
       = map Confetti.ttl (Confetti.pieces sim)
    /\ Forall (fun p => Confetti.life p = Z.min (Z.of_nat n) 140)
         (Confetti.pieces s)
    /\ (140 <= n -> Confetti.drawn (Confetti.canvas s) = []).
Proof.
  intros dom g g' sim n H s.
  assert (Hsim : Confetti.frame sim = 0%Z /\ Confetti.scheduled sim = true
                 /\ length (Confetti.pieces sim) = 120
                 /\ Forall (fun p => Confetti.life p = 0%Z)
                      (Confetti.pieces sim)).
  { destruct (ConfettiFacts.shootConfetti_shape dom g g' sim H) as (cv & -> & _ & _).
    destruct (ConfettiFacts.spawn_spec 120 cv g) as (Hl & _ & Hp).
    cbn [Confetti.frame Confetti.scheduled Confetti.pieces].
    repeat split; auto.
    eapply Forall_impl; [|exact Hp]. intros p (A & _). exact A. }
  destruct Hsim as (Hf & Hs & Hl & Hp).
  destruct (ConfettiFacts.run_spec n sim Hs ltac:(lia))
    as (A & B & C & D & E & F).
  fold s in A, B, C, D, E, F. rewrite Hf in A, B, E, F.
  simpl in A, B, F.
  repeat split; auto; try congruence.
  - apply Forall_forall. intros p Hin.
    apply (in_map Confetti.life) in Hin. rewrite E in Hin.
    apply in_map_iff in Hin as (p0 & <- & Hin0).
    rewrite Forall_forall in Hp. rewrite (Hp p0 Hin0), A. lia.
  - intros Hn. apply F. lia.
Qed.

Lemma confetti_runs_140_frames_witness :
  let s := Confetti.run 141 sampleSim in
  Confetti.frame s = Z.min (Z.of_nat 141) 140
  /\ Confetti.scheduled s = (Z.of_nat 141 <? 140)%Z
  /\ length (Confetti.pieces s) = 120
  /\ map Confetti.ttl (Confetti.pieces s)
     = map Confetti.ttl (Confetti.pieces sampleSim)
  /\ Forall (fun p => Confetti.life p = Z.min (Z.of_nat 141) 140)
       (Confetti.pieces s)
  /\ (140 <= 141 -> Confetti.drawn (Confetti.canvas s) = []).
Proof.
  apply (confetti_runs_140_frames sampleDom
           (constantTape JsNumber.lit_0_5)
           (skip 840 (constantTape JsNumber.lit_0_5)) sampleSim 141).
  vm_compute. reflexivity.
Defined.

(** X19: a tick paints at most one rectangle per piece, whatever the
    canvas held before, and keeps the number of pieces: the surface is
    cleared before the pieces are drawn, so no trail is left. *)
Theorem tick_leaves_no_trail :
  forall s : Confetti.Sim,
    length (Confetti.drawn (Confetti.canvas (Confetti.tick s)))
    <= length (Confetti.pieces s)
    /\ length (Confetti.pieces (Confetti.tick s))
       = length (Confetti.pieces s).
Proof.
  intros s. destruct (ConfettiFacts.tick_spec s) as (_ & _ & Hp & Hd & _).
  split; [exact Hd|]. now rewrite Hp, length_map.
Qed.

(** C9: a burst that [shootConfetti] starts, the draws being Numbers of
    [0, 1), has exactly 120 pieces, each with an integral time-to-live
    from 90 to 149 frames.  The loop schedules a further frame exactly
    while fewer than 140 frames have run, so it runs 140 frames and
    stops; from then on nothing is scheduled and the canvas is blank,
    whatever time-to-live the pieces have left (their age is 140, their
    times-to-live are as spawned). *)
Theorem confetti_burst_is_bounded :
  forall (dom : Confetti.Dom) (g g' : Rng) (sim : Confetti.Sim),
    unitTape g ->
    Confetti.shootConfetti dom g = (Some sim, g') ->
    length (Confetti.pieces sim) = 120
    /\ Forall (fun p => exists z, (90 <= z < 150)%Z
                                  /\ Confetti.ttl p = JsNumber.ofZ z)
         (Confetti.pieces sim)
    /\ forall n : nat,
         let s := Confetti.run n sim in
         Confetti.scheduled s = (Z.of_nat n <? 140)%Z
         /\ Confetti.frame s = Z.min (Z.of_nat n) 140
         /\ map Confetti.ttl (Confetti.pieces s)
            = map Confetti.ttl (Confetti.pieces sim)
         /\ (140 <= n ->
             Confetti.scheduled s = false
             /\ Confetti.drawn (Confetti.canvas s) = []
             /\ Forall (fun p => Confetti.life p = 140%Z)
                  (Confetti.pieces s)).
Proof.
  intros dom g g' sim Hu H.
  destruct (ConfettiFacts.shootConfetti_shape dom g g' sim H)
    as (cv & Hsim & _ & _).
  destruct (ConfettiFacts.spawn_spec 120 cv g) as (Hl & _ & Hp).
  assert (Hpieces : Confetti.pieces sim = fst (Confetti.spawn 120 cv g))
    by now rewrite Hsim.
  assert (Hframe : Confetti.frame sim = 0%Z) by now rewrite Hsim.
  assert (Hsched : Confetti.scheduled sim = true) by now rewrite Hsim.
  clear Hsim.
  split; [now rewrite Hpieces|]. split.
  - rewrite Hpieces.
    eapply Forall_impl; [|exact (ConfettiFacts.spawn_ranges 120 cv g Hu)].
    intros p [Ht _]. exact Ht.
  - intros n s.
    destruct (ConfettiFacts.run_spec n sim Hsched ltac:(lia))
      as (A & B & _ & D & E & F).
    fold s in A, B, D, E, F. rewrite Hframe in A, B, E, F.
    rewrite Z.add_0_l in A, B, F.
    split; [exact B|]. split; [exact A|]. split; [exact D|].
    intros Hn. split; [|split].
    + rewrite B. apply Z.ltb_ge. lia.
    + apply F. lia.
    + apply Forall_forall. intros p Hin.
      apply (in_map Confetti.life) in Hin. rewrite E in Hin.
      apply in_map_iff in Hin as (p0 & <- & Hin0).
      rewrite Hpieces in Hin0.
      rewrite Forall_forall in Hp.
      destruct (Hp p0 Hin0) as (Hlife & _).
      rewrite Hlife, A. lia.
Qed.

Lemma confetti_burst_is_bounded_witness :
  length (Confetti.pieces sampleSim) = 120
  /\ Forall (fun p => exists z, (90 <= z < 150)%Z
                                /\ Confetti.ttl p = JsNumber.ofZ z)
       (Confetti.pieces sampleSim)
  /\ forall n : nat,
       let s := Confetti.run n sampleSim in
       Confetti.scheduled s = (Z.of_nat n <? 140)%Z
       /\ Confetti.frame s = Z.min (Z.of_nat n) 140
       /\ map Confetti.ttl (Confetti.pieces s)
          = map Confetti.ttl (Confetti.pieces sampleSim)
       /\ (140 <= n ->
           Confetti.scheduled s = false
           /\ Confetti.drawn (Confetti.canvas s) = []
           /\ Forall (fun p => Confetti.life p = 140%Z)
                (Confetti.pieces s)).
Proof.
  apply (confetti_burst_is_bounded sampleDom
           (constantTape JsNumber.lit_0_5)
           (skip 840 (constantTape JsNumber.lit_0_5)) sampleSim).
  - intros k. reflexivity.
  - vm_compute. reflexivity.
Defined.

(** ** Normal forms of answers *)

Module NormalForm.

Import JsString.

Lemma allWhiteSpace_app (a b : jsstring) :
  allWhiteSpace (a ++ b) = allWhiteSpace a && allWhiteSpace b.
Proof. apply forallb_app. Qed.

Lemma allWhiteSpace_rev (s : jsstring) :
  allWhiteSpace (rev s) = allWhiteSpace s.
Proof.
  induction s as [|c s IH]; [reflexivity|].
  simpl rev. rewrite allWhiteSpace_app, IH. simpl.
  rewrite andb_true_r. apply andb_comm.
Qed.

Lemma trimStart_white (w s : jsstring) :
  allWhiteSpace w = true -> trimStart (w ++ s) = trimStart s.
Proof.
  induction w as [|c w IH]; intros H; [reflexivity|].
  simpl in H. apply andb_true_iff in H as [Hc Hw].
  simpl. rewrite Hc. now apply IH.
Qed.

Lemma trimStart_nonwhite (s r : jsstring) :
  allWhiteSpace s = false -> trimStart (s ++ r) = trimStart s ++ r.
Proof.
  induction s as [|c s IH]; intros H; [discriminate|].
  simpl in H. simpl. destruct (isWhiteSpace c); [|reflexivity].
  now apply IH.
Qed.

Lemma trimStart_nil_iff (s : jsstring) :
  trimStart s = [] <-> allWhiteSpace s = true.
Proof.
  induction s as [|c s IH]; [now split|].
  simpl. destruct (isWhiteSpace c); [exact IH|].
  split; discriminate.
Qed.

Lemma trimStart_head (s : jsstring) (c : N) (r : jsstring) :
  trimStart s = c :: r -> isWhiteSpace c = false.
Proof.
  induction s as [|a s IH]; [discriminate|].
  simpl. destruct (isWhiteSpace a) eqn:E; [exact IH|].
  intros H. injection H as -> _. exact E.
Qed.

Lemma trimStart_fixed (c : N) (r : jsstring) :
  isWhiteSpace c = false -> trimStart (c :: r) = c :: r.
Proof. intros H. simpl. now rewrite H. Qed.

Lemma trimStart_idempotent (s : jsstring) :
  trimStart (trimStart s) = trimStart s.
Proof.
  destruct (trimStart s) as [|c r] eqn:E; [reflexivity|].
  apply trimStart_fixed. eapply trimStart_head; eassumption.
Qed.

Lemma trimEnd_white (s w : jsstring) :
  allWhiteSpace w = true -> trimEnd (s ++ w) = trimEnd s.
Proof.
  intros H. unfold trimEnd. rewrite rev_app_distr, trimStart_white; auto.
  now rewrite allWhiteSpace_rev.
Qed.

Lemma trimEnd_nonwhite (s b : jsstring) :
  allWhiteSpace b = false -> trimEnd (s ++ b) = s ++ trimEnd b.
Proof.
  intros H. unfold trimEnd.
  rewrite rev_app_distr, trimStart_nonwhite, rev_app_distr, rev_involutive;
    auto.
  now rewrite allWhiteSpace_rev.
Qed.

Lemma trimEnd_nil_iff (s : jsstring) :
  trimEnd s = [] <-> allWhiteSpace s = true.
Proof.
  unfold trimEnd. rewrite <- allWhiteSpace_rev, <- trimStart_nil_iff.
  split; intros H.
  - apply (f_equal (@rev N)) in H. now rewrite rev_involutive in H.
  - now rewrite H.
Qed.

Lemma trim_nil_iff (s : jsstring) :
  trim s = [] <-> allWhiteSpace s = true.
Proof.
  unfold trim. rewrite trimEnd_nil_iff.
  destruct (allWhiteSpace s) eqn:E.
  - apply trimStart_nil_iff in E. rewrite E. now split.
  - split; [|discriminate]. intros H.
    destruct (trimStart s) as [|c r] eqn:Et.
    + apply trimStart_nil_iff in Et. congruence.
    + apply trimStart_head in Et. simpl in H. rewrite Et in H. discriminate.
Qed.

Lemma trim_surrounded (l s r : jsstring) :
  allWhiteSpace l = true -> allWhiteSpace r = true ->
  trim (l ++ s ++ r) = trim s.
Proof.
  intros Hl Hr. unfold trim. rewrite trimStart_white by exact Hl.
  destruct (allWhiteSpace s) eqn:Es.
  - rewrite trimStart_white by exact Es.
    apply trimStart_nil_iff in Hr, Es. now rewrite Hr, Es.
  - rewrite trimStart_nonwhite by exact Es. now apply trimEnd_white.
Qed.

(** The lower-case table moves no code unit into or out of the white
    space class and maps its own results to themselves. *)
Lemma lowerUnit_above (c : N) : (400 <= c)%N -> lowerUnit c = c.
Proof.
  intros H. unfold lowerUnit.
  repeat match goal with
         | |- context [(c <=? ?k)%N] =>
             replace (c <=? k)%N with false by (symmetry; apply N.leb_gt; lia)
         | |- context [(c =? ?k)%N] =>
             replace (c =? k)%N with false by (symmetry; apply N.eqb_neq; lia)
         end.
  rewrite !andb_false_r. reflexivity.
Qed.

Lemma lowerUnit_table (c : N) :
  isWhiteSpace (lowerUnit c) = isWhiteSpace c
  /\ lowerUnit (lowerUnit c) = lowerUnit c.
Proof.
  destruct (N.lt_ge_cases c 400) as [Hlt | Hge].
  - assert (Hall : forallb
                     (fun n => Bool.eqb (isWhiteSpace (lowerUnit (N.of_nat n)))
                                 (isWhiteSpace (N.of_nat n))
                               && (lowerUnit (lowerUnit (N.of_nat n))
                                   =? lowerUnit (N.of_nat n))%N)
                     (seq 0 400) = true) by (vm_compute; reflexivity).
    rewrite forallb_forall in Hall.
    specialize (Hall (N.to_nat c)). rewrite N2Nat.id in Hall.
    destruct (andb_prop _ _ (Hall ltac:(apply in_seq; lia))) as [A B].
    split; [now apply eqb_prop | now apply N.eqb_eq].
  - now rewrite !lowerUnit_above by (rewrite ?lowerUnit_above; assumption).
Qed.

Lemma allWhiteSpace_lower (s : jsstring) :
  allWhiteSpace (toLowerCase s) = allWhiteSpace s.
Proof.
  unfold allWhiteSpace, toLowerCase.
  induction s as [|c s IH]; [reflexivity|].
  cbn [map forallb]. now rewrite IH, (proj1 (lowerUnit_table c)).
Qed.

Lemma trimStart_lower (s : jsstring) :
  trimStart (toLowerCase s) = toLowerCase (trimStart s).
Proof.
  induction s as [|c s IH]; [reflexivity|].
  simpl. rewrite (proj1 (lowerUnit_table c)).
  destruct (isWhiteSpace c); [exact IH | reflexivity].
Qed.

Lemma trim_lower (s : jsstring) :
  trim (toLowerCase s) = toLowerCase (trim s).
Proof.
  assert (R : forall x, rev (toLowerCase x) = toLowerCase (rev x))
    by (intros x; unfold toLowerCase; symmetry; apply map_rev).
  unfold trim, trimEnd.
  now rewrite trimStart_lower, R, trimStart_lower, R.
Qed.

Lemma toLowerCase_idempotent (s : jsstring) :
  toLowerCase (toLowerCase s) = toLowerCase s.
Proof.
  unfold toLowerCase. rewrite map_map. apply map_ext.
  intros c. apply lowerUnit_table.
Qed.

Lemma collapse_lower (f : bool) (s : jsstring) :
  collapseFrom f (toLowerCase s) = toLowerCase (collapseFrom f s).
Proof.
  revert f. induction s as [|c s IH]; intros f; [reflexivity|].
  simpl. rewrite (proj1 (lowerUnit_table c)).
  destruct (isWhiteSpace c) eqn:E.
  - destruct f; simpl; now rewrite (IH true).
  - simpl. now rewrite (IH false).
Qed.

Lemma collapse_app (f : bool) (a b : jsstring) :
  collapseFrom f (a ++ b)
  = collapseFrom f a ++ collapseFrom (runStateAfter f a) b.
Proof.
  revert f. induction a as [|c a IH]; intros f; [reflexivity|].
  simpl. destruct (isWhiteSpace c); [destruct f|]; simpl; now rewrite IH.
Qed.

Lemma collapse_white_run (f : bool) (w : jsstring) :
  w <> [] -> allWhiteSpace w = true ->
  collapseFrom f w = (if f then [] else [32%N])
  /\ runStateAfter f w = true.
Proof.
  revert f. induction w as [|c w IH]; intros f Hne H; [congruence|].
  simpl in H. apply andb_true_iff in H as [Hc Hw].
  simpl. rewrite Hc.
  destruct w as [|c' w'].
  - simpl. destruct f; now split.
  - destruct (IH true ltac:(discriminate) Hw) as [A B].
    rewrite A, B. destruct f; now split.
Qed.

Lemma collapse_idempotent (f : bool) (s : jsstring) :
  collapseFrom f (collapseFrom f s) = collapseFrom f s.
Proof.
  revert f. induction s as [|c s IH]; intros f; [reflexivity|].
  simpl. destruct (isWhiteSpace c) eqn:E.
  - destruct f; [apply IH|].
    simpl. now rewrite (IH true).
  - simpl. rewrite E. now rewrite (IH false).
Qed.

Lemma collapse_nil_iff (s : jsstring) :
  collapseFrom false s = [] <-> s = [].
Proof.
  destruct s as [|c s]; [now split|].
  simpl. destruct (isWhiteSpace c); split; discriminate.
Qed.

Lemma runStateAfter_app (f : bool) (a b : jsstring) :
  runStateAfter f (a ++ b) = runStateAfter (runStateAfter f a) b.
Proof.
  revert f. induction a as [|c a IH]; intros f; [reflexivity|]. apply IH.
Qed.

Lemma trimStart_length (s : jsstring) : length (trimStart s) <= length s.
Proof.
  induction s as [|c s IH]; [simpl; lia|].
  simpl. destruct (isWhiteSpace c); simpl; lia.
Qed.

Lemma trimEnd_length (s : jsstring) : length (trimEnd s) <= length s.
Proof.
  unfold trimEnd. rewrite length_rev.
  rewrite <- (length_rev s). apply trimStart_length.
Qed.

Lemma trimEnd_idempotent (s : jsstring) : trimEnd (trimEnd s) = trimEnd s.
Proof.
  unfold trimEnd. now rewrite rev_involutive, trimStart_idempotent.
Qed.

Lemma trimEnd_keeps_head (c : N) (r : jsstring) :
  isWhiteSpace c = false -> exists r', trimEnd (c :: r) = c :: r'.
Proof.
  intros Hc. change (c :: r) with ([c] ++ r).
  destruct (allWhiteSpace r) eqn:E.
  - rewrite trimEnd_white by exact E. exists [].
    unfold trimEnd. simpl. now rewrite Hc.
  - rewrite trimEnd_nonwhite by exact E. now exists (trimEnd r).
Qed.

Lemma trimStart_trim (s : jsstring) : trimStart (trim s) = trim s.
Proof.
  unfold trim. destruct (trimStart s) as [|c r] eqn:E; [reflexivity|].
  apply trimStart_head in E.
  destruct (trimEnd_keeps_head c r E) as [r' ->].
  now apply trimStart_fixed.
Qed.

Lemma trimEnd_trim (s : jsstring) : trimEnd (trim s) = trim s.
Proof. unfold trim. apply trimEnd_idempotent. Qed.

Lemma trim_idempotent (s : jsstring) : trim (trim s) = trim s.
Proof.
  unfold trim at 1. now rewrite trimStart_trim, trimEnd_trim.
Qed.

Lemma collapse_keeps_clean_start (s : jsstring) :
  trimStart s = s -> trimStart (collapseFrom false s) = collapseFrom false s.
Proof.
  destruct s as [|c r]; [reflexivity|]. intros H.
  destruct (isWhiteSpace c) eqn:E.
  - simpl in H. rewrite E in H.
    pose proof (trimStart_length r) as Hl. rewrite H in Hl. simpl in Hl. lia.
  - simpl. rewrite E. now apply trimStart_fixed.
Qed.

Lemma collapse_keeps_clean_end (s : jsstring) :
  trimEnd s = s -> trimEnd (collapseFrom false s) = collapseFrom false s.
Proof.
  destruct s as [|a s'] using rev_ind; [reflexivity|]. clear IHs'.
  rename s' into y, a into c. intros H.
  destruct (isWhiteSpace c) eqn:E.
  - rewrite trimEnd_white in H by (simpl; now rewrite E).
    pose proof (trimEnd_length y) as Hl. rewrite H, length_app in Hl.
    simpl in Hl. lia.
  - rewrite collapse_app. simpl. rewrite E.
    rewrite trimEnd_nonwhite by (simpl; now rewrite E).
    f_equal. unfold trimEnd. simpl. now rewrite E.
Qed.

Lemma trim_normalize (s : jsstring) : trim (normalize s) = normalize s.
Proof.
  unfold normalize, replaceWhiteSpaceRuns. rewrite <- trim_lower.
  unfold trim at 1.
  rewrite collapse_keeps_clean_start by apply trimStart_trim.
  apply collapse_keeps_clean_end, trimEnd_trim.
Qed.

End NormalForm.

(** ** The case table is closed under the steps of [normalize] *)

Module CaseTable.

Lemma inCaseTable_lower (c : N) :
  JsString.inCaseTable c = true ->
  JsString.inCaseTable (JsString.lowerUnit c) = true.
Proof.
  intros H.
  destruct (N.lt_ge_cases c 400) as [Hlt | Hge].
  - assert (Hall : forallb
                     (fun n => implb (JsString.inCaseTable (N.of_nat n))
                                 (JsString.inCaseTable
                                    (JsString.lowerUnit (N.of_nat n))))
                     (seq 0 400) = true) by (vm_compute; reflexivity).
    rewrite forallb_forall in Hall.
    specialize (Hall (N.to_nat c)).
    rewrite N2Nat.id, H in Hall. apply Hall.
    apply in_seq. lia.
  - now rewrite NormalForm.lowerUnit_above.
Qed.

Lemma app_in_table (a b : jsstring) :
  caseTableString (a ++ b) = caseTableString a && caseTableString b.
Proof. apply forallb_app. Qed.

Lemma caseTable_rev (s : jsstring) :
  caseTableString (rev s) = caseTableString s.
Proof.
  induction s as [|c r IH]; [reflexivity|].
  simpl rev. rewrite app_in_table, IH. simpl.
  rewrite andb_true_r. apply andb_comm.
Qed.

Lemma caseTable_trimStart (s : jsstring) :
  caseTableString s = true -> caseTableString (JsString.trimStart s) = true.
Proof.
  induction s as [|c r IH]; [auto|]. intros H. simpl.
  destruct (JsString.isWhiteSpace c); [|exact H].
  apply IH. simpl in H. now apply andb_true_iff in H.
Qed.

Lemma caseTable_trim (s : jsstring) :
  caseTableString s = true -> caseTableString (JsString.trim s) = true.
Proof.
  intros H. unfold JsString.trim, JsString.trimEnd.
  rewrite caseTable_rev. apply caseTable_trimStart.
  rewrite caseTable_rev. now apply caseTable_trimStart.
Qed.

Lemma caseTable_lower (s : jsstring) :
  caseTableString s = true -> caseTableString (JsString.toLowerCase s) = true.
Proof.
  induction s as [|c r IH]; [auto|]. simpl. intros H.
  apply andb_true_iff in H as [Hc Hr].
  now rewrite inCaseTable_lower, IH.
Qed.

Lemma caseTable_collapse (inRun : bool) (s : jsstring) :
  caseTableString s = true ->
  caseTableString (JsString.collapseFrom inRun s) = true.
Proof.
  revert inRun. induction s as [|c r IH]; [auto|]. intros inRun H.
  simpl in H. apply andb_true_iff in H as [Hc Hr]. simpl.
  destruct (JsString.isWhiteSpace c).
  - destruct inRun; [now apply IH|]. simpl. now apply IH.
  - simpl. rewrite Hc. now apply IH.
Qed.

Lemma normalize_in_table (s : jsstring) :
  caseTableString s = true -> caseTableString (normalize s) = true.
Proof.
  intros H. unfold normalize, JsString.replaceWhiteSpaceRuns.
  now apply caseTable_collapse, caseTable_lower, caseTable_trim.
Qed.

End CaseTable.

(** X20: on the strings of the case table [normalize] is idempotent: the
    normal form is again a string of the case table, and it is its own
    normal form. *)
Theorem normalize_idempotent :
  forall s : jsstring,
    caseTableString s = true ->
    caseTableString (normalize s) = true
    /\ normalize (normalize s) = normalize s.
Proof.
  intros s Hs. split; [now apply CaseTable.normalize_in_table|].
  unfold normalize at 1.
  rewrite NormalForm.trim_normalize.
  unfold normalize, JsString.replaceWhiteSpaceRuns.
  rewrite <- NormalForm.collapse_lower, NormalForm.toLowerCase_idempotent.
  apply NormalForm.collapse_idempotent.
Qed.

Lemma normalize_idempotent_witness :
  let s := JsString.lit "  DZIE" ++ [323%N] ++ JsString.lit "   Dobry " in
  caseTableString (normalize s) = true
  /\ normalize (normalize s) = normalize s.
Proof.
  intros s. apply (normalize_idempotent s). reflexivity.
Defined.

(** X21: white space before and after an answer does not matter: the
    normal form is the same and so is the verdict against any expected
    answer. *)
Theorem surrounding_white_space_is_ignored :
  forall l s r : jsstring,
    allWhiteSpace l = true -> allWhiteSpace r = true ->
    normalize (l ++ s ++ r) = normalize s
    /\ forall correct, checkAnswer (l ++ s ++ r) correct
                       = checkAnswer s correct.
Proof.
  intros l s r Hl Hr.
  assert (H : normalize (l ++ s ++ r) = normalize s)
    by (unfold normalize; now rewrite NormalForm.trim_surrounded).
  split; [exact H|]. intros correct. unfold checkAnswer. now rewrite H.
Qed.

Lemma surrounding_white_space_is_ignored_witness :
  normalize (JsString.lit "  " ++ JsString.lit "kot" ++ JsString.lit " ")
  = normalize (JsString.lit "kot")
  /\ forall correct,
       checkAnswer (JsString.lit "  " ++ JsString.lit "kot"
                    ++ JsString.lit " ") correct
       = checkAnswer (JsString.lit "kot") correct.
Proof.
  apply (surrounding_white_space_is_ignored
           (JsString.lit "  ") (JsString.lit "kot") (JsString.lit " "));
    reflexivity.
Defined.

(** X22: two answers written with the code units of the case table that
    have the same lower-case form have the same normal form and get the
    same verdict against any expected answer. *)
Theorem letter_case_is_ignored :
  forall u v : jsstring,
    caseTableString u = true -> caseTableString v = true ->
    JsString.toLowerCase u = JsString.toLowerCase v ->
    normalize u = normalize v
    /\ forall correct, checkAnswer u correct = checkAnswer v correct.
Proof.
  intros u v _ _ H.
  assert (E : normalize u = normalize v).
  { unfold normalize. now rewrite <- !NormalForm.trim_lower, H. }
  split; [exact E|]. intros correct. unfold checkAnswer. now rewrite E.
Qed.

Lemma letter_case_is_ignored_witness :
  normalize (JsString.lit "DoM") = normalize (JsString.lit "dOm")
  /\ forall correct,
       checkAnswer (JsString.lit "DoM") correct
       = checkAnswer (JsString.lit "dOm") correct.
Proof.
  apply (letter_case_is_ignored (JsString.lit "DoM") (JsString.lit "dOm"));
    reflexivity.
Defined.

(** X23: in an answer written with the code units of the case table,
    the length and the make-up of a non-empty run of white space inside
    it do not matter to its normal form. *)
Theorem inner_run_length_is_ignored :
  forall a w1 w2 b : jsstring,
    caseTableString a = true -> caseTableString b = true ->
    w1 <> [] -> w2 <> [] ->
    allWhiteSpace w1 = true -> allWhiteSpace w2 = true ->
    normalize (a ++ w1 ++ b) = normalize (a ++ w2 ++ b).
Proof.
  assert (Hone : forall a w b, w <> [] -> allWhiteSpace w = true ->
            normalize (a ++ w ++ b)
            = if allWhiteSpace a then normalize b
              else if allWhiteSpace b then normalize a
              else JsString.collapseFrom false
                     (JsString.toLowerCase (JsString.trimStart a))
                   ++ (if runStateAfter false
                            (JsString.toLowerCase (JsString.trimStart a))
                       then [] else [32%N])
                   ++ JsString.collapseFrom true
                        (JsString.toLowerCase (JsString.trimEnd b))).
  { intros a w b Hne Hw.
    destruct (allWhiteSpace a) eqn:Ea.
    - unfold normalize. f_equal. f_equal.
      rewrite app_assoc.
      rewrite <- (app_nil_r ((a ++ w) ++ b)), <- app_assoc.
      apply NormalForm.trim_surrounded; [|reflexivity].
      now rewrite NormalForm.allWhiteSpace_app, Ea, Hw.
    - destruct (allWhiteSpace b) eqn:Eb.
      + unfold normalize. f_equal. f_equal.
        change (a ++ w ++ b) with ([] ++ a ++ (w ++ b)).
        apply NormalForm.trim_surrounded; [reflexivity|].
        now rewrite NormalForm.allWhiteSpace_app, Hw, Eb.
      + unfold normalize, JsString.trim, JsString.replaceWhiteSpaceRuns.
        rewrite NormalForm.trimStart_nonwhite by exact Ea.
        rewrite app_assoc, NormalForm.trimEnd_nonwhite by exact Eb.
        unfold JsString.toLowerCase. rewrite !map_app.
        fold (JsString.toLowerCase (JsString.trimStart a)).
        fold (JsString.toLowerCase w).
        fold (JsString.toLowerCase (JsString.trimEnd b)).
        rewrite !NormalForm.collapse_app, NormalForm.runStateAfter_app.
        assert (Hw' : allWhiteSpace (JsString.toLowerCase w) = true)
          by now rewrite NormalForm.allWhiteSpace_lower.
        assert (Hne' : JsString.toLowerCase w <> [])
          by (destruct w; [congruence | discriminate]).
        destruct (NormalForm.collapse_white_run
                    (runStateAfter false
                       (JsString.toLowerCase (JsString.trimStart a)))
                    (JsString.toLowerCase w) Hne' Hw') as [A B].
        rewrite A, B. now rewrite <- app_assoc. }
  intros a w1 w2 b _ _ H1 H2 Hw1 Hw2.
  now rewrite (Hone a w1 b H1 Hw1), (Hone a w2 b H2 Hw2).
Qed.

Lemma inner_run_length_is_ignored_witness :
  normalize (JsString.lit "dom" ++ JsString.lit "   " ++ JsString.lit "ek")
  = normalize (JsString.lit "dom" ++ JsString.lit " " ++ JsString.lit "ek").
Proof.
  apply (inner_run_length_is_ignored (JsString.lit "dom")
           (JsString.lit "   ") (JsString.lit " ") (JsString.lit "ek"));
    (discriminate || reflexivity).
Defined.

(** X24: the Check button is disabled exactly when the value consists of
    white space only, which is exactly when its normal form is empty. *)
Theorem blank_answers_disable_check :
  forall s : CardState,
    checkDisabled s = allWhiteSpace (value s)
    /\ (normalize (value s) = [] <-> allWhiteSpace (value s) = true).
Proof.
  intros s. split.
  - unfold checkDisabled.
    destruct (allWhiteSpace (value s)) eqn:E.
    + apply NormalForm.trim_nil_iff in E. now rewrite E.
    + destruct (JsString.trim (value s)) eqn:Et; [|reflexivity].
      apply NormalForm.trim_nil_iff in Et. congruence.
  - rewrite <- NormalForm.trim_nil_iff.
    unfold normalize, JsString.replaceWhiteSpaceRuns.
    rewrite NormalForm.collapse_nil_iff. unfold JsString.toLowerCase.
    split; intros H.
    + now apply map_eq_nil in H.
    + now rewrite H.
Qed.

(** ** Mounting and reachable states *)

(** X25: with an empty list of exercises the application cannot be
    mounted: the first pick is [undefined] and the first render of the
    card throws. *)
Theorem mount_empty_pool_throws :
  forall g : Rng, mount [] g = Throw "TypeError" /\ throws (mount [] g).
Proof.
  intros g.
  assert (H : mount [] g = Throw "TypeError").
  { unfold mount. now rewrite pickRandom_eq, pickedBy_nil. }
  split; [exact H|]. rewrite H. now exists "TypeError"%string.
Qed.

Lemma mount_state (pool : list Exercise) (g : Rng) (a : AppState) :
  mount pool g = Normal a ->
  exercises a = pool /\ In (current a) pool /\ card a = resetState.
Proof.
  unfold mount. rewrite pickRandom_eq.
  destruct (pickedBy pool (draws g (pos g))) as [e|] eqn:E; [|discriminate].
  intros H. injection H as <-. simpl. repeat split.
  eapply pickedBy_In; eassumption.
Qed.

Lemma runEvents_invariants (fuel : nat) (evs : list Event) :
  forall a a' : AppState,
    In (current a) (exercises a) -> verdictMatchesChecked (card a) ->
    runEvents fuel a evs = Normal a' ->
    exercises a' = exercises a /\ In (current a') (exercises a)
    /\ verdictMatchesChecked (card a').
Proof.
  induction evs as [|ev evs IH]; intros a a' Hin Hv H; cbn [runEvents] in H.
  - injection H as <-. auto.
  - destruct (step fuel a ev) as [a1 | m |] eqn:E; try discriminate.
    pose proof (step_verdict fuel a a1 ev Hv E) as Hv1.
    apply step_cases in E as [Hp Hc].
    assert (Hin1 : In (current a1) (exercises a1)).
    { rewrite Hp. destruct Hc as [[-> _] | (_ & Hi & _)]; assumption. }
    destruct (IH a1 a' Hin1 Hv1 H) as (A & B & C).
    rewrite Hp in A, B. auto.
Qed.

(** X26: from the first render on, through any sequence of events, the
    pool is the list the application was mounted with, the exercise
    shown is one of its members, and the card shows a verdict exactly
    when it is checked. *)
Theorem mounted_app_invariants :
  forall (fuel : nat) (pool : list Exercise) (g : Rng) (evs : list Event)
         (a0 a : AppState),
    mount pool g = Normal a0 ->
    runEvents fuel a0 evs = Normal a ->
    exercises a = pool /\ In (current a) pool
    /\ verdictMatchesChecked (card a).
Proof.
  intros fuel pool g evs a0 a Hm Hr.
  destruct (mount_state pool g a0 Hm) as (Hp & Hin & Hc).
  destruct (runEvents_invariants fuel evs a0 a) as (A & B & C).
  - now rewrite Hp.
  - now rewrite Hc.
  - exact Hr.
  - rewrite Hp in A, B. auto.
Qed.

Lemma mounted_app_invariants_witness :
  exercises sampleMountedCheckedApp = [sampleTextExercise]
  /\ In (current sampleMountedCheckedApp) [sampleTextExercise]
  /\ verdictMatchesChecked (card sampleMountedCheckedApp).
Proof.
  apply (mounted_app_invariants 0 [sampleTextExercise]
           (constantTape JsNumber.zero)
           [setAnswerValue (JsString.lit "dom"); check]
           sampleMountedApp sampleMountedCheckedApp); reflexivity.
Defined.

(** ** The feedback classes *)




